(** * tanstack-db-atom: lifecycle translation and subscription bridging

    A shallow embedding of [src/atom-tanstack-db.ts].  The five exported
    constructors ([makeCollectionAtom], [makeSingleCollectionAtom],
    [makeQuery], [makeQueryUnsafe], [makeQueryConditional]) are read functions
    handed to [Atom.readable]; each is written here as a computation in a
    small state-and-exception monad over a [World] that holds the collections
    (TanStack DB side), the reactive cells (Effect Atom side), the live
    subscriptions, and a log of the interface calls the code performs. *)

From stdpp Require Import base option list strings.
From Stdlib Require Import ZArith Lia.

Open Scope string_scope.
Open Scope list_scope.

(** ** Data model *)

(** [CollectionStatus] of [./types]: the five lifecycle strings
    ["idle" | "loading" | "ready" | "error" | "cleaned-up"]. *)
Inductive CollectionStatus :=
| Idle
| Loading
| Ready
| StatusError
| CleanedUp.

#[global] Instance CollectionStatus_eq_dec : EqDecision CollectionStatus.
Proof. solve_decision. Defined.

(** [a === b] on status strings. *)
Definition status_eqb (a b : CollectionStatus) : bool :=
  match a, b with
  | Idle, Idle | Loading, Loading | Ready, Ready
  | StatusError, StatusError | CleanedUp, CleanedUp => true
  | _, _ => false
  end.

Notation "a === b" := (status_eqb a b) (at level 70, no associativity).

(** [new Error(message)]. *)
Record Error := mkError { message : string }.

(** The few JavaScript values a collection's [config.singleResult] may hold;
    the code compares it with [=== true]. *)
Inductive JsValue :=
| JsUndefined
| JsNull
| JsBool (b : bool)
| JsNumber (z : Z)
| JsString (s : string).

(** [v === true] *)
Definition strict_eq_true (v : JsValue) : bool :=
  match v with
  | JsBool true => true
  | _ => false
  end.

(** [QueryOptions] of [./types]: every field optional. *)
Record QueryOptions := mkQueryOptions {
  opt_gcTime : option Z;
  opt_startSync : option bool;
  opt_suspendOnWaiting : option bool;
}.

(** [options?.startSync ?? true] *)
Definition startSync_or_default (options : option QueryOptions) : bool :=
  default true (options ≫= opt_startSync).

(** [options?.gcTime ?? 0] *)
Definition gcTime_or_default (options : option QueryOptions) : Z :=
  default 0%Z (options ≫= opt_gcTime).

(** One builder step [q.p1...pn.method(args)] of a query descriptor: the
    properties read on the way to the method (none in [q.where(cb)], [fn] in
    [q.fn.where(cb)]), the method, and its arguments.  Arguments are opaque
    to this package (tables, callbacks, literals): only their printed form
    is kept. *)
Record MethodCall := mkStep {
  via : list string;
  method : string;
  arguments : list string;
}.

(** [q.method(args)]: a call made on the builder itself. *)
Definition mkCall (method : string) (arguments : list string) : MethodCall :=
  mkStep [] method arguments.

(** [QueryFn]: [(q) => q.m1(..).m2(..)...], the chain of builder steps whose
    final continuation is returned. *)
Definition QueryFn := list MethodCall.

(** The two disabled markers a conditional descriptor may return. *)
Inductive Nullish := ReturnsNull | ReturnsUndefined.

(** [ConditionalQueryFn]: within one evaluation the closed-over inputs are
    fixed, so the descriptor either builds a chain of steps and returns it,
    or (after possibly touching the builder) returns a disabled marker. *)
Inductive ConditionalQueryFn :=
| Builds (chain : QueryFn)
| Declines (touched : list MethodCall) (marker : Nullish).

(** Handles are object references; they are indices into the world's tables. *)
Abbreviation CollectionRef := nat (only parsing).
Abbreviation CellRef := nat (only parsing).
Abbreviation SubscriptionRef := nat (only parsing).

(** Which of the three inlined bridges a notification closure belongs to. *)
Inductive Bridge := ArrayBridge | SingleBridge | QueryBridge.

(** The closure passed to [subscribeChanges]: it captures [collection] and
    [get] of the evaluation that created it. *)
Record Callback := mkCallback {
  cb_bridge : Bridge;
  cb_collection : CollectionRef;
  cb_get : CellRef;
}.

(** The closure passed to [get.addFinalizer]: [() => subscription.unsubscribe()]. *)
Inductive Finalizer := Unsubscribe (subscription : SubscriptionRef).

(** What the code asks of its two collaborators, in program order. *)
Inductive Event :=
| EvStartSyncImmediate (c : CollectionRef)
| EvCreateLiveQuery (c : CollectionRef) (query : QueryFn) (startSync : bool) (gcTime : Z)
| EvSubscribeChanges (c : CollectionRef) (s : SubscriptionRef)
| EvUnsubscribe (s : SubscriptionRef)
| EvStatus (c : CollectionRef) (st : CollectionStatus)
| EvEntries (c : CollectionRef)
| EvConfig (c : CollectionRef)
| EvAddFinalizer (cell : CellRef) (f : Finalizer)
| EvSetSelf (cell : CellRef)
| EvGet (cell : CellRef)
| EvProxyGet (property : string).

#[global] Instance Finalizer_eq_dec : EqDecision Finalizer.
Proof. solve_decision. Defined.

(** What running a piece of JavaScript gives: a value, or a thrown error. *)
Inductive Outcome (A : Type) :=
| Return (a : A)
| Throw (reason : string).
Arguments Return {A} a.
Arguments Throw {A} reason.

Section Model.

(** Keys and entities are opaque to the package. *)
Context {K T : Type}.

(** [InferResultType<TContext> | undefined]: what a projection can be. *)
Inductive Projection :=
| PUndefined
| PEntity (v : T)
| PArray (vs : list T).

(** [Result.Result<A, Error>] as this package builds it: [Result.initial],
    [Result.success], [Result.fail]. *)
Inductive Result :=
| Initial (waiting : bool)
| Success (value : Projection)
| Failure (error : Error).

(** [collection.config] as far as the code looks into it. *)
Record CollectionConfig := mkConfig { singleResult : JsValue }.

(** The observable part of a collection. *)
Record Collection := mkCollection {
  status : CollectionStatus;
  coll_entries : list (K * T);
  config : option CollectionConfig;
  syncStarted : bool;
}.

(** What a collection shows at one instant. *)
Record Snapshot := mkSnapshot {
  snap_status : CollectionStatus;
  snap_entries : list (K * T);
  snap_config : option CollectionConfig;
}.

Record Subscription := mkSubscription {
  sub_collection : CollectionRef;
  sub_callback : Callback;
  sub_active : bool;
  sub_released : nat;
}.

(** The three value types of the exported atoms. *)
Inductive CellValue :=
| CellResult (r : Result)
| CellPlain (p : Projection)
| CellOptional (r : option Result).

Record Cell := mkCell {
  cell_value : option CellValue;
  cell_finalizers : list Finalizer;
}.

Record World := mkWorld {
  collections : list Collection;
  subscriptions : list Subscription;
  cells : list Cell;
  trace : list Event;
}.

Definition empty_world : World := mkWorld [] [] [] [].

Definition log (e : Event) (w : World) : World :=
  mkWorld (collections w) (subscriptions w) (cells w) (trace w ++ [e]).

Definition with_collections (cs : list Collection) (w : World) : World :=
  mkWorld cs (subscriptions w) (cells w) (trace w).

Definition with_subscriptions (ss : list Subscription) (w : World) : World :=
  mkWorld (collections w) ss (cells w) (trace w).

Definition with_cells (cs : list Cell) (w : World) : World :=
  mkWorld (collections w) (subscriptions w) cs (trace w).

(** ** The evaluation monad: state plus JavaScript exceptions *)

Definition M (A : Type) : Type := World -> Outcome A * World.

Definition ret {A} (a : A) : M A := fun w => (Return a, w).

Definition throw {A} (reason : string) : M A := fun w => (Throw reason, w).

Definition bind {A B} (m : M A) (k : A -> M B) : M B :=
  fun w =>
    match m w with
    | (Return a, w') => k a w'
    | (Throw e, w') => (Throw e, w')
    end.

Definition emit (e : Event) : M unit := fun w => (Return tt, log e w).

Definition exec {A} (m : M A) (w : World) : World := snd (m w).

#[global] Instance M_ret : MRet M := @ret.
#[global] Instance M_bind : MBind M := fun A B k m => bind m k.

(** ** The collection collaborator (TanStack DB), at its interface

    Only the members the package touches: [status], [entries()], [config],
    [startSyncImmediate()], [subscribeChanges(cb)], the subscription's
    [unsubscribe()], and [createLiveQueryCollection].  Their bodies belong
    to the collaborator; they follow section 6 of the specification. *)

Definition lookup_collection (c : CollectionRef) : M Collection :=
  fun w =>
    match collections w !! c with
    | Some col => (Return col, w)
    | None => (Throw "dangling collection handle", w)
    end.

Definition store_collection (c : CollectionRef) (col : Collection) : M unit :=
  fun w => (Return tt, with_collections (<[c := col]> (collections w)) w).

(** [collection.status] *)
Definition get_status (c : CollectionRef) : M CollectionStatus :=
  col ← lookup_collection c;
  emit (EvStatus c (status col)) ;;
  ret (status col).

(** [Array.from(collection.entries())] *)
Definition get_entries (c : CollectionRef) : M (list (K * T)) :=
  col ← lookup_collection c;
  emit (EvEntries c) ;;
  ret (coll_entries col).

(** [(collection as any).config] *)
Definition get_config (c : CollectionRef) : M (option CollectionConfig) :=
  col ← lookup_collection c;
  emit (EvConfig c) ;;
  ret (config col).

(** Modelled from the spec: the body of the collaborator's
    [startSyncImmediate] is not part of the package; section 4.2 says it
    makes the collection begin syncing if it has not already started and is
    safe on a handle that is already syncing.  A collection that starts
    syncing leaves [idle] for [loading]. *)
Definition begin_sync (col : Collection) : Collection :=
  if syncStarted col then col
  else mkCollection (if status col === Idle then Loading else status col)
         (coll_entries col) (config col) true.

(** [collection.startSyncImmediate()] *)
Definition startSyncImmediate (c : CollectionRef) : M unit :=
  col ← lookup_collection c;
  emit (EvStartSyncImmediate c) ;;
  store_collection c (begin_sync col).

Definition register (c : CollectionRef) (callback : Callback) : M SubscriptionRef :=
  fun w =>
    let s := length (subscriptions w) in
    (Return s,
     log (EvSubscribeChanges c s)
       (with_subscriptions (subscriptions w ++ [mkSubscription c callback true 0]) w)).

(** Modelled from the spec: the body of the collaborator's
    [subscribeChanges] is not part of the package.  It registers the
    callback and returns the new subscription handle, and a collection that
    gets a subscriber before its sync has started starts it: section 4.2 has
    every bridge trigger the sync on construction, and for [makeQuery], which
    section 4.4 sends down the same path, the subscription is the one call
    made on a collection that was created with [startSync: false].  What
    the sync then delivers reaches the subscribers as a change report (a
    [transition] below), which may come before the status is sampled. *)
Definition subscribeChanges (c : CollectionRef) (callback : Callback) : M SubscriptionRef :=
  col ← lookup_collection c;
  store_collection c (begin_sync col) ;;
  register c callback.

Definition release (sub : Subscription) : Subscription :=
  mkSubscription (sub_collection sub) (sub_callback sub) false (S (sub_released sub)).

(** [subscription.unsubscribe()] *)
Definition unsubscribe (s : SubscriptionRef) : M unit :=
  fun w =>
    match subscriptions w !! s with
    | Some sub =>
        (Return tt,
         log (EvUnsubscribe s) (with_subscriptions (<[s := release sub]> (subscriptions w)) w))
    | None => (Throw "dangling subscription handle", w)
    end.

(** Modelled from the spec: the query engine is an external collaborator
    (section 1); [engine query] is what a live query over [query] shows once
    its sync has begun. *)
Variable engine : QueryFn -> Snapshot.

(** Modelled from the spec: [createLiveQueryCollection({query, startSync,
    gcTime})], the query-construction entry point of section 6.  It
    allocates a fresh collection; syncing begins at once only when
    [startSync] is set, otherwise the collection is created idle.
    Construction itself does not fail: a query that cannot load shows in the
    collection's status (section 7). *)
Definition createLiveQueryCollection (query : QueryFn) (startSync : bool) (gcTime : Z)
  : M CollectionRef :=
  fun w =>
    let c := length (collections w) in
    let snap := engine query in
    let col :=
      if startSync
      then mkCollection (snap_status snap) (snap_entries snap) (snap_config snap) true
      else mkCollection Idle [] (snap_config snap) false in
    (Return c,
     log (EvCreateLiveQuery c query startSync gcTime)
       (with_collections (collections w ++ [col]) w)).

(** ** The reactive-cell host (Effect Atom), at its interface *)

(** [Atom.Atom<A>] built by [Atom.readable(read)]: the read function, which
    receives the evaluation context [get] of the cell being computed. *)
Definition Atom (A : Type) : Type := CellRef -> M A.

Class CellType (A : Type) := to_cell : A -> CellValue.
#[global] Instance Result_cell : CellType Result := CellResult.
#[global] Instance Projection_cell : CellType Projection := CellPlain.
#[global] Instance Optional_cell : CellType (option Result) := CellOptional.

Definition set_value (v : CellValue) (cell : Cell) : Cell :=
  mkCell (Some v) (cell_finalizers cell).

Definition push_finalizer (f : Finalizer) (cell : Cell) : Cell :=
  mkCell (cell_value cell) (cell_finalizers cell ++ [f]).

(** [get.setSelf(value)] *)
Definition setSelf (get : CellRef) (value : Result) : M unit :=
  fun w =>
    (Return tt,
     log (EvSetSelf get) (with_cells (alter (set_value (CellResult value)) get (cells w)) w)).

(** [get.addFinalizer(f)] *)
Definition addFinalizer (get : CellRef) (f : Finalizer) : M unit :=
  fun w =>
    (Return tt,
     log (EvAddFinalizer get f) (with_cells (alter (push_finalizer f) get (cells w)) w)).

Definition allocate_cell : M CellRef :=
  fun w => (Return (length (cells w)), with_cells (cells w ++ [mkCell None []]) w).

Definition store_value (cell : CellRef) (v : CellValue) : M unit :=
  fun w => (Return tt, with_cells (alter (set_value v) cell (cells w)) w).

(** Mounting an atom in the registry: a cell is allocated, the read function
    runs with that cell as [get], and what it returns becomes the cell's
    value. *)
Definition mount {A} `{CellType A} (atom : Atom A) : M (CellRef * A) :=
  cell ← allocate_cell;
  value ← atom cell;
  store_value cell (to_cell value) ;;
  ret (cell, value).

(** [get(atom)] inside a read function: the atom is mounted and its current
    value returned.  The dependency the host records by this read, and the
    re-evaluation of the reading cell that it triggers later, belong to the
    host's scheduler (out of scope by section 1) and are not modelled: the
    reading cell holds the value of its one evaluation. *)
Definition get_atom {A} `{CellType A} (atom : Atom A) : M A :=
  ' (cell, value) ← mount atom;
  emit (EvGet cell) ;;
  ret value.

(** ** [makeCollectionAtom] (lines 26-82) *)

(** The closure given to [subscribeChanges], lines 35-55. *)
Definition makeCollectionAtom_onChange (collection : CollectionRef) (get : CellRef) : M unit :=
  status ← get_status collection;
  if status === StatusError
  then setSelf get (Failure (mkError "Collection failed to load"))
  else if (status === Loading) || (status === Idle)
  then setSelf get (Initial true)
  else if status === CleanedUp
  then setSelf get (Failure (mkError "Collection has been cleaned up"))
  else
    entries ← get_entries collection;
    let newData := map snd entries in
    setSelf get (Success (PArray newData)).

(** "Return initial state based on current status", lines 62-80. *)
Definition makeCollectionAtom_initial (collection : CollectionRef) : M Result :=
  status ← get_status collection;
  if status === StatusError
  then mret (Failure (mkError "Collection failed to load"))
  else if (status === Loading) || (status === Idle)
  then mret (Initial true)
  else if status === CleanedUp
  then mret (Failure (mkError "Collection has been cleaned up"))
  else
    entries ← get_entries collection;
    let initialData := map snd entries in
    mret (Success (PArray initialData)).

Definition makeCollectionAtom (collection : CollectionRef) : Atom Result :=
  fun get =>
    startSyncImmediate collection ;;
    subscription ← subscribeChanges collection (mkCallback ArrayBridge collection get);
    addFinalizer get (Unsubscribe subscription) ;;
    makeCollectionAtom_initial collection.

(** ** [makeSingleCollectionAtom] (lines 88-146) *)

(** [entries[0]![1]]: indexing the pair that [entries[0]] yields; on an
    empty array [entries[0]] is [undefined] and the access throws. *)
Definition first_entry_value (entries : list (K * T)) : M Projection :=
  match entries !! 0 with
  | Some (_, value) => mret (PEntity value)
  | None => throw "TypeError: cannot read properties of undefined"
  end.

(** [entries.length > 0 ? entries[0]![1] : undefined] *)
Definition single_of (entries : list (K * T)) : M Projection :=
  if decide (0 < length entries) then first_entry_value entries else mret PUndefined.

(** The closure given to [subscribeChanges], lines 97-118. *)
Definition makeSingleCollectionAtom_onChange (collection : CollectionRef) (get : CellRef)
  : M unit :=
  status ← get_status collection;
  if status === StatusError
  then setSelf get (Failure (mkError "Collection failed to load"))
  else if (status === Loading) || (status === Idle)
  then setSelf get (Initial true)
  else if status === CleanedUp
  then setSelf get (Failure (mkError "Collection has been cleaned up"))
  else
    entries ← get_entries collection;
    newData ← single_of entries;
    setSelf get (Success newData).

(** Lines 125-144. *)
Definition makeSingleCollectionAtom_initial (collection : CollectionRef) : M Result :=
  status ← get_status collection;
  if status === StatusError
  then mret (Failure (mkError "Collection failed to load"))
  else if (status === Loading) || (status === Idle)
  then mret (Initial true)
  else if status === CleanedUp
  then mret (Failure (mkError "Collection has been cleaned up"))
  else
    entries ← get_entries collection;
    initialData ← single_of entries;
    mret (Success initialData).

Definition makeSingleCollectionAtom (collection : CollectionRef) : Atom Result :=
  fun get =>
    startSyncImmediate collection ;;
    subscription ← subscribeChanges collection (mkCallback SingleBridge collection get);
    addFinalizer get (Unsubscribe subscription) ;;
    makeSingleCollectionAtom_initial collection.

(** ** [makeQuery] (lines 152-218) *)

(** [(collection as any).config?.singleResult === true] *)
Definition isSingleResult_of (cfg : option CollectionConfig) : bool :=
  strict_eq_true (from_option singleResult JsUndefined cfg).

(** [(isSingleResult ? entries[0] : entries)], where [entries] is already the
    array of values; [entries[0]] of an empty array is [undefined]. *)
Definition query_data (isSingleResult : bool) (entries : list T) : Projection :=
  if isSingleResult
  then match entries !! 0 with Some value => PEntity value | None => PUndefined end
  else PArray entries.

(** The closure given to [subscribeChanges], lines 166-189. *)
Definition makeQuery_onChange (collection : CollectionRef) (get : CellRef) : M unit :=
  status ← get_status collection;
  if status === StatusError
  then setSelf get (Failure (mkError "Query failed to load"))
  else if (status === Loading) || (status === Idle)
  then setSelf get (Initial true)
  else if status === CleanedUp
  then setSelf get (Failure (mkError "Query collection has been cleaned up"))
  else
    cfg ← get_config collection;
    let isSingleResult := isSingleResult_of cfg in
    raw ← get_entries collection;
    let entries := map snd raw in
    let newData := query_data isSingleResult entries in
    setSelf get (Success newData).

(** Lines 196-216. *)
Definition makeQuery_initial (collection : CollectionRef) : M Result :=
  status ← get_status collection;
  if status === StatusError
  then mret (Failure (mkError "Query failed to load"))
  else if (status === Loading) || (status === Idle)
  then mret (Initial true)
  else if status === CleanedUp
  then mret (Failure (mkError "Query collection has been cleaned up"))
  else
    cfg ← get_config collection;
    let isSingleResult := isSingleResult_of cfg in
    raw ← get_entries collection;
    let entries := map snd raw in
    let initialData := query_data isSingleResult entries in
    mret (Success initialData).

Definition makeQuery (queryFn : QueryFn) (options : option QueryOptions) : Atom Result :=
  fun get =>
    collection ← createLiveQueryCollection queryFn
                   (startSync_or_default options) (gcTime_or_default options);
    subscription ← subscribeChanges collection (mkCallback QueryBridge collection get);
    addFinalizer get (Unsubscribe subscription) ;;
    makeQuery_initial collection.

(** ** [makeQueryUnsafe] (lines 224-232) *)

(** [Result.getOrElse] of the atom library, on the results this package
    builds ([Result.fail(e)] carries no previous success): the value of a
    [Success], otherwise the fallback. *)
Definition getOrElse (self : Result) (orElse : unit -> Projection) : Projection :=
  match self with
  | Success value => value
  | Initial _ | Failure _ => orElse tt
  end.

(** [constUndefined] of [effect/Function]. *)
Definition constUndefined : unit -> Projection := fun _ => PUndefined.

Definition makeQueryUnsafe (queryFn : QueryFn) (options : option QueryOptions)
  : Atom Projection :=
  fun get =>
    result ← get_atom (makeQuery queryFn options);
    mret (getOrElse result constUndefined).

(** ** [makeQueryConditional] (lines 238-269) *)

(** The values that flow while the descriptor runs against the stand-in. *)
Inductive ProbeValue :=
| ProxyBuilder
| ProxyMethod
| ProbeNull
| ProbeUndefined.

(** The [get] trap of the handler, lines 248-253: it clears the flag and
    hands back [() => proxyBuilder]. *)
Definition proxy_get_trap (property : string) (queryReturnsNull : bool)
  : M (ProbeValue * bool) :=
  emit (EvProxyGet property) ;;
  let queryReturnsNull := false in
  mret (ProxyMethod, queryReturnsNull).

(** [target[property]], for [property] a builder member: the proxy answers
    through its trap; the arrow function the trap hands out has no builder
    member of its own (what it inherits from [Function.prototype] is none),
    so reading one gives [undefined]; reading from [null] or [undefined]
    throws. *)
Definition js_get (target : ProbeValue) (property : string) (queryReturnsNull : bool)
  : M (ProbeValue * bool) :=
  match target with
  | ProxyBuilder => proxy_get_trap property queryReturnsNull
  | ProxyMethod => mret (ProbeUndefined, queryReturnsNull)
  | ProbeNull => throw "TypeError: cannot read properties of null"
  | ProbeUndefined => throw "TypeError: cannot read properties of undefined"
  end.

(** [f(...args)]: the arrow function returned by the trap ignores its
    arguments and returns the proxy. *)
Definition js_call (f : ProbeValue) (args : list string) : M ProbeValue :=
  match f with
  | ProxyMethod => mret ProxyBuilder
  | _ => throw "TypeError: not a function"
  end.

(** [target.p1.p2...] *)
Fixpoint js_get_path (target : ProbeValue) (path : list string) (queryReturnsNull : bool)
  : M (ProbeValue * bool) :=
  match path with
  | [] => mret (target, queryReturnsNull)
  | property :: rest =>
      ' (value, queryReturnsNull) ← js_get target property queryReturnsNull;
      js_get_path value rest queryReturnsNull
  end.

(** [q.m1(..).m2(..)...], each step possibly through properties:
    [q.p1...pn.m(..)]. *)
Fixpoint run_chain (calls : list MethodCall) (q : ProbeValue) (queryReturnsNull : bool)
  : M (ProbeValue * bool) :=
  match calls with
  | [] => mret (q, queryReturnsNull)
  | call :: rest =>
      ' (holder, queryReturnsNull) ← js_get_path q (via call) queryReturnsNull;
      ' (f, queryReturnsNull) ← js_get holder (method call) queryReturnsNull;
      q' ← js_call f (arguments call);
      run_chain rest q' queryReturnsNull
  end.

Definition marker_value (marker : Nullish) : ProbeValue :=
  match marker with
  | ReturnsNull => ProbeNull
  | ReturnsUndefined => ProbeUndefined
  end.

(** [queryFn(q)] *)
Definition invoke (queryFn : ConditionalQueryFn) (q : ProbeValue) (queryReturnsNull : bool)
  : M (ProbeValue * bool) :=
  match queryFn with
  | Builds chain => run_chain chain q queryReturnsNull
  | Declines touched marker =>
      ' (_, queryReturnsNull) ← run_chain touched q queryReturnsNull;
      mret (marker_value marker, queryReturnsNull)
  end.

(** [query === null || query === undefined] *)
Definition is_nullish (query : ProbeValue) : bool :=
  match query with
  | ProbeNull | ProbeUndefined => true
  | _ => false
  end.

(** [queryFn as QueryFn<TContext>]: an unchecked cast, reached only after
    the probe has returned a builder. *)
Definition as_QueryFn (queryFn : ConditionalQueryFn) : QueryFn :=
  match queryFn with
  | Builds chain => chain
  | Declines touched _ => touched
  end.

Definition makeQueryConditional (queryFn : ConditionalQueryFn) (options : option QueryOptions)
  : Atom (option Result) :=
  fun get =>
    let queryReturnsNull := false in
    ' (query, queryReturnsNull) ← invoke queryFn ProxyBuilder queryReturnsNull;
    let queryReturnsNull := if is_nullish query then true else queryReturnsNull in
    if queryReturnsNull
    then mret None
    else
      result ← get_atom (makeQuery (as_QueryFn queryFn) options);
      mret (Some result).

(** ** The environment: notifications, transitions, teardown *)

(** Running a registered closure. *)
Definition run_callback (cb : Callback) : M unit :=
  match cb_bridge cb with
  | ArrayBridge => makeCollectionAtom_onChange (cb_collection cb) (cb_get cb)
  | SingleBridge => makeSingleCollectionAtom_onChange (cb_collection cb) (cb_get cb)
  | QueryBridge => makeQuery_onChange (cb_collection cb) (cb_get cb)
  end.

(** Modelled from the spec: the collection's dispatch of one change event
    is the collaborator's (section 5).  It calls each live subscriber of
    the collection in turn; a released subscription is skipped, and an
    exception thrown by one callback does not reach the others. *)
Definition deliver (c : CollectionRef) (w : World) (sub : Subscription) : World :=
  if decide (sub_collection sub = c)
  then if sub_active sub then exec (run_callback (sub_callback sub)) w else w
  else w.

(** The collection [c] reports a change to its subscribers, in registration
    order. *)
Definition notify (c : CollectionRef) (w : World) : World :=
  foldl (deliver c) w (subscriptions w).

Definition install (s : Snapshot) (col : Collection) : Collection :=
  mkCollection (snap_status s) (snap_entries s) (snap_config s) (syncStarted col).

(** Modelled from the spec: a status transition (or content change) of
    collection [c]; the collection takes the new snapshot and reports the
    change to its subscribers (sections 1 and 5). *)
Definition transition (c : CollectionRef) (s : Snapshot) (w : World) : World :=
  notify c (with_collections (alter (install s) c (collections w)) w).

Definition transitions (steps : list (CollectionRef * Snapshot)) (w : World) : World :=
  foldl (fun w step => transition (fst step) (snd step) w) w steps.

Definition run_finalizer (f : Finalizer) : M unit :=
  match f with
  | Unsubscribe subscription => unsubscribe subscription
  end.

Definition clear_finalizers (cell : Cell) : Cell := mkCell (cell_value cell) [].

(** Modelled from the spec: the host's teardown of a cell is not part of the
    package; per the glossary every registered finalizer runs once when the
    cell is torn down, after which none remains registered. *)
Definition teardown (cell : CellRef) (w : World) : World :=
  foldl (fun w f => exec (run_finalizer f) w)
    (with_cells (alter clear_finalizers cell (cells w)) w)
    (from_option cell_finalizers [] (cells w !! cell)).

(** ** Specification-side vocabulary *)

(** The message of [e] contains [phrase]. *)
Definition says (phrase : string) (e : Error) : Prop :=
  is_Some (String.index 0 phrase (message e)).

(** The status table of section 3, read as a relation between a status, the
    projected entries and a result. *)
Definition table_row (st : CollectionStatus) (projected : Projection) (r : Result) : Prop :=
  match st with
  | Idle | Loading => r = Initial true
  | Ready => r = Success projected
  | StatusError => ∃ e, r = Failure e ∧ says "failed to load" e
  | CleanedUp => ∃ e, r = Failure e ∧ says "has been cleaned up" e
  end.

(** Single projection: the first entry if any exists, else undefined. *)
Definition first_or_undefined (entries : list (K * T)) : Projection :=
  match entries with
  | [] => PUndefined
  | (_, value) :: _ => PEntity value
  end.

(** Array projection: every entry's value, in iteration order. *)
Definition all_values (entries : list (K * T)) : Projection :=
  PArray (map snd entries).

(** The projection a live query shows: single when its configuration has
    [singleResult] set to [true], the array otherwise. *)
Definition single_or_all (cfg : option CollectionConfig) (entries : list (K * T))
  : Projection :=
  match cfg with
  | Some {| singleResult := JsBool true |} => first_or_undefined entries
  | _ => all_values entries
  end.

(** Projection mode of section 3, per bridge. *)
Definition projection_of (b : Bridge) (cfg : option CollectionConfig) (entries : list (K * T))
  : Projection :=
  match b with
  | ArrayBridge => all_values entries
  | SingleBridge => first_or_undefined entries
  | QueryBridge => single_or_all cfg entries
  end.

(** The three constructors that bridge a collection to a cell. *)
Inductive Constructor :=
| ByCollection (collection : CollectionRef)
| BySingleCollection (collection : CollectionRef)
| ByQuery (queryFn : QueryFn) (options : option QueryOptions).

Definition atom_of (k : Constructor) : Atom Result :=
  match k with
  | ByCollection collection => makeCollectionAtom collection
  | BySingleCollection collection => makeSingleCollectionAtom collection
  | ByQuery queryFn options => makeQuery queryFn options
  end.

Definition bridge_of (k : Constructor) : Bridge :=
  match k with
  | ByCollection _ => ArrayBridge
  | BySingleCollection _ => SingleBridge
  | ByQuery _ _ => QueryBridge
  end.

(** The collection behind the cell: the one handed in, or the one the
    evaluation is about to create. *)
Definition backing (k : Constructor) (w : World) : CollectionRef :=
  match k with
  | ByCollection collection | BySingleCollection collection => collection
  | ByQuery _ _ => length (collections w)
  end.

(** Precondition of section 4.3: a collection handed in exists. *)
Definition handle_valid (k : Constructor) (w : World) : Prop :=
  match k with
  | ByCollection collection | BySingleCollection collection =>
      is_Some (collections w !! collection)
  | ByQuery _ _ => True
  end.

(** The status-sampling block of each bridge. *)
Definition initial_of (b : Bridge) : CollectionRef -> M Result :=
  match b with
  | ArrayBridge => makeCollectionAtom_initial
  | SingleBridge => makeSingleCollectionAtom_initial
  | QueryBridge => makeQuery_initial
  end.

(** Every registered closure writes into a cell that is already mounted. *)
Definition subscribers_mounted (w : World) : Prop :=
  ∀ sub, sub ∈ subscriptions w → cb_get (sub_callback sub) < length (cells w).

(** The value of a cell, as a reader sees it. *)
Definition visible (cell : CellRef) (w : World) : option CellValue :=
  cells w !! cell ≫= cell_value.

(** ** What each block computes *)

(** The error values built by the bridges (the literal messages of the
    source). *)
Definition load_failed (b : Bridge) : Error :=
  match b with
  | QueryBridge => mkError "Query failed to load"
  | _ => mkError "Collection failed to load"
  end.

Definition torn_down (b : Bridge) : Error :=
  match b with
  | QueryBridge => mkError "Query collection has been cleaned up"
  | _ => mkError "Collection has been cleaned up"
  end.

(** The result a bridge derives from a collection, whichever of its two
    copies of the cascade runs. *)
Definition shown (b : Bridge) (col : Collection) : Result :=
  match status col with
  | Idle | Loading => Initial true
  | Ready => Success (projection_of b (config col) (coll_entries col))
  | StatusError => Failure (load_failed b)
  | CleanedUp => Failure (torn_down b)
  end.

(** The reads one run of the cascade performs. *)
Definition sample_events (b : Bridge) (c : CollectionRef) (col : Collection) : list Event :=
  EvStatus c (status col) ::
  match status col with
  | Ready => match b with QueryBridge => [EvConfig c; EvEntries c] | _ => [EvEntries c] end
  | _ => []
  end.

(** The collection of a live query once the evaluation has subscribed to
    it: as [createLiveQueryCollection] made it, with its sync begun. *)
Definition created (queryFn : QueryFn) (startSync : bool) : Collection :=
  begin_sync
    (if startSync
     then mkCollection (snap_status (engine queryFn)) (snap_entries (engine queryFn))
            (snap_config (engine queryFn)) true
     else mkCollection Idle [] (snap_config (engine queryFn)) false).

(** The collections once the evaluation has triggered the sync or created
    its collection, and has subscribed; and the call that came first. *)
Definition prepared (k : Constructor) (w : World) : list Collection :=
  match k with
  | ByCollection c | BySingleCollection c => alter begin_sync c (collections w)
  | ByQuery queryFn options =>
      collections w ++ [created queryFn (startSync_or_default options)]
  end.

Definition setup_event (k : Constructor) (w : World) : Event :=
  match k with
  | ByCollection c | BySingleCollection c => EvStartSyncImmediate c
  | ByQuery queryFn options =>
      EvCreateLiveQuery (length (collections w)) queryFn
        (startSync_or_default options) (gcTime_or_default options)
  end.


(** The read function of a bridging constructor, cut at the subscription:
    everything up to and including [subscribeChanges] ... *)
Definition subscribe_phase (k : Constructor) (get : CellRef)
  : M (CollectionRef * SubscriptionRef) :=
  match k with
  | ByCollection collection | BySingleCollection collection =>
      startSyncImmediate collection ;;
      subscription ← subscribeChanges collection (mkCallback (bridge_of k) collection get);
      mret (collection, subscription)
  | ByQuery queryFn options =>
      collection ← createLiveQueryCollection queryFn
                     (startSync_or_default options) (gcTime_or_default options);
      subscription ← subscribeChanges collection (mkCallback QueryBridge collection get);
      mret (collection, subscription)
  end.

(** ... and what follows it: the finalizer and the status sample. *)
Definition sample_phase (k : Constructor) (get : CellRef)
    (handles : CollectionRef * SubscriptionRef) : M Result :=
  addFinalizer get (Unsubscribe (snd handles)) ;;
  initial_of (bridge_of k) (fst handles).

(** The cell [cell] shows what bridge [b] derives from collection [c]. *)
Definition tracks (b : Bridge) (c : CollectionRef) (cell : CellRef) (w : World) : Prop :=
  ∃ col, collections w !! c = Some col
         ∧ visible cell w = Some (CellResult (shown b col)).

(** Whoever writes into [cell] is the closure of bridge [b] over [c]. *)
Definition owned (b : Bridge) (c : CollectionRef) (cell : CellRef)
    (l : list Subscription) : Prop :=
  ∀ sub, sub ∈ l → cb_get (sub_callback sub) = cell →
         sub_callback sub = mkCallback b c cell.

(** The standing invariant of a mounted bridging cell. *)
Definition bridged (b : Bridge) (c : CollectionRef) (cell : CellRef) (w : World) : Prop :=
  tracks b c cell w
  ∧ owned b c cell (subscriptions w)
  ∧ ∃ sub, sub ∈ subscriptions w ∧ sub_callback sub = mkCallback b c cell
           ∧ sub_active sub = true ∧ sub_collection sub = c.

(** What a run of [calls] against the stand-in leaves in the log. *)
Definition probe_events (calls : list MethodCall) : list Event :=
  map (fun call => EvProxyGet (method call)) calls.

(** A step made on the builder itself, through no property of what a
    builder member returned. *)
Definition is_direct (call : MethodCall) : bool :=
  match via call with
  | [] => true
  | _ :: _ => false
  end.

(** Every step of the chain is made on the builder itself. *)
Definition straight (calls : list MethodCall) : bool := forallb is_direct calls.

(** The builder steps a conditional descriptor makes before it returns. *)
Definition steps_of (queryFn : ConditionalQueryFn) : list MethodCall :=
  match queryFn with
  | Builds chain => chain
  | Declines touched _ => touched
  end.

(** [(q) => q.from({ todos }).fn.where(cb)]: a descriptor whose second step
    goes through the builder's [fn] member. *)
Definition through_fn : QueryFn :=
  [mkCall "from" ["todos"]; mkStep ["fn"] "where" ["cb"]].

(** ** Scripts: what the host and the collections may do, in any order *)

(** One step of the surroundings: the host evaluates an atom of one of the
    five constructors, a collection reports a change, or the host tears a
    cell down. *)
Inductive Action :=
| Evaluate (k : Constructor)
| EvaluateUnsafe (queryFn : QueryFn) (options : option QueryOptions)
| EvaluateConditional (queryFn : ConditionalQueryFn) (options : option QueryOptions)
| Report (c : CollectionRef) (s : Snapshot)
| Finalize (cell : CellRef).

Definition perform (w : World) (a : Action) : World :=
  match a with
  | Evaluate k => exec (mount (atom_of k)) w
  | EvaluateUnsafe queryFn options => exec (mount (makeQueryUnsafe queryFn options)) w
  | EvaluateConditional queryFn options =>
      exec (mount (makeQueryConditional queryFn options)) w
  | Report c s => transition c s w
  | Finalize cell => teardown cell w
  end.

Definition run (script : list Action) (w : World) : World := foldl perform w script.

(** The script never tears [cell] down. *)
Definition spares (cell : CellRef) (script : list Action) : Prop :=
  Finalize cell ∉ script.

(** The finalizers registered on a cell. *)
Definition finalizers_of (i : CellRef) (w : World) : option (list Finalizer) :=
  cell_finalizers <$> cells w !! i.

(** Subscriptions and finalizers agree: a live subscription has never been
    released and is the one finalizer of the (mounted) cell its closure
    writes to; a released one has been released exactly once; and a cell's
    finalizer, if it has one, unsubscribes a live subscription of that very
    cell. *)
Definition well_formed (w : World) : Prop :=
  (∀ s sub, subscriptions w !! s = Some sub →
     is_Some (finalizers_of (cb_get (sub_callback sub)) w)
     ∧ (sub_active sub = true →
        sub_released sub = 0
        ∧ finalizers_of (cb_get (sub_callback sub)) w = Some [Unsubscribe s])
     ∧ (sub_active sub = false → sub_released sub = 1))
  ∧ (∀ i fs, finalizers_of i w = Some fs →
       fs = []
       ∨ ∃ s sub, fs = [Unsubscribe s]
                  ∧ subscriptions w !! s = Some sub
                  ∧ sub_active sub = true
                  ∧ cb_get (sub_callback sub) = i).

(** Tearing down every cell of the world, in order of creation. *)
Definition teardown_all (w : World) : World :=
  foldl (fun w i => teardown i w) w (seq 0 (length (cells w))).

(** What one evaluation may add to the world: it leaves the collections as
    they are, or triggers the sync of one, or appends one; it appends cells
    without finalizers and then, at most, one cell whose single finalizer
    unsubscribes the one subscription it appends, whose closure writes to
    that cell. *)
Definition grows (w w' : World) : Prop :=
  (collections w' = collections w
   ∨ (∃ c, collections w' = alter begin_sync c (collections w))
   ∨ (∃ col, collections w' = collections w ++ [col]))
  ∧ ∃ plain,
      (∀ cell, cell ∈ plain → cell_finalizers cell = [])
      ∧ ((cells w' = cells w ++ plain ∧ subscriptions w' = subscriptions w)
         ∨ ∃ v c cb,
             cells w' = cells w ++ plain
                          ++ [mkCell v [Unsubscribe (length (subscriptions w))]]
             ∧ subscriptions w' = subscriptions w ++ [mkSubscription c cb true 0]
             ∧ cb_get cb = length (cells w) + length plain).


(** The first element of an array projection, as a single projection. *)
Definition head_of (whole : Result) : Result :=
  match whole with
  | Success (PArray vs) =>
      Success (match vs with [] => PUndefined | v :: _ => PEntity v end)
  | other => other
  end.

(** The calls a notification closure makes: reads of the collection and the
    push into its cell. *)
Definition is_observation (e : Event) : bool :=
  match e with
  | EvStatus _ _ | EvEntries _ | EvConfig _ | EvSetSelf _ => true
  | _ => false
  end.

(** The three kinds of evaluation among the actions. *)
Definition is_evaluation (a : Action) : bool :=
  match a with
  | Evaluate _ | EvaluateUnsafe _ _ | EvaluateConditional _ _ => true
  | Report _ _ | Finalize _ => false
  end.

(** ** Helper lemmas *)

Ltac unfold_monad :=
  unfold get_status, get_entries, get_config, lookup_collection, store_collection,
    emit, mbind, M_bind, bind, mret, M_ret, ret, throw in *.

Lemma log_trace e w :
  log e w = mkWorld (collections w) (subscriptions w) (cells w) (trace w ++ [e]).
Proof. reflexivity. Qed.

Lemma shown_in_table b col :
  table_row (status col) (projection_of b (config col) (coll_entries col)) (shown b col).
Proof.
  unfold shown, table_row. destruct (status col); try done.
  - exists (load_failed b). split; [done|]. destruct b; vm_compute; eauto.
  - exists (torn_down b). split; [done|]. destruct b; vm_compute; eauto.
Qed.

Lemma single_of_total entries w :
  single_of entries w = (Return (first_or_undefined entries), w).
Proof. unfold single_of. by destruct entries as [|[k v] rest]. Qed.

Lemma query_data_single_or_all cfg (raw : list (K * T)) :
  query_data (isSingleResult_of cfg) (map snd raw) = single_or_all cfg raw.
Proof.
  unfold query_data, isSingleResult_of, single_or_all.
  destruct cfg as [[[| |[|]| |]]|]; cbn; try done.
  by destruct raw as [|[k v] rest].
Qed.

Lemma initial_of_spec b c w col :
  collections w !! c = Some col →
  initial_of b c w =
    (Return (shown b col),
     mkWorld (collections w) (subscriptions w) (cells w) (trace w ++ sample_events b c col)).
Proof.
  intros Hc. unfold shown, sample_events.
  destruct b; cbn;
    unfold makeCollectionAtom_initial, makeSingleCollectionAtom_initial, makeQuery_initial;
    unfold_monad; rewrite Hc; cbn; destruct (status col); cbn;
    repeat (rewrite Hc; cbn);
    rewrite ?single_of_total, ?query_data_single_or_all; unfold log; cbn;
    rewrite <- ?app_assoc; done.
Qed.

Lemma run_callback_spec cb w :
  exec (run_callback cb) w =
    match collections w !! cb_collection cb with
    | Some col =>
        mkWorld (collections w) (subscriptions w)
          (alter (set_value (CellResult (shown (cb_bridge cb) col))) (cb_get cb) (cells w))
          (trace w ++ sample_events (cb_bridge cb) (cb_collection cb) col
             ++ [EvSetSelf (cb_get cb)])
    | None => w
    end.
Proof.
  destruct cb as [b c get]. unfold exec, run_callback, shown, sample_events. cbn.
  destruct (collections w !! c) as [col|] eqn:Hc.
  - destruct b; cbn;
      unfold makeCollectionAtom_onChange, makeSingleCollectionAtom_onChange,
        makeQuery_onChange, setSelf;
      unfold_monad; rewrite Hc; cbn; destruct (status col); cbn;
      repeat (rewrite Hc; cbn);
      rewrite ?single_of_total, ?query_data_single_or_all; unfold log; cbn;
      rewrite <- ?app_assoc; done.
  - destruct b; cbn;
      unfold makeCollectionAtom_onChange, makeSingleCollectionAtom_onChange,
        makeQuery_onChange;
      unfold_monad; by rewrite Hc.
Qed.

Lemma insert_as_alter {A} (f : A → A) (l : list A) i x :
  l !! i = Some x → <[i := f x]> l = alter f i l.
Proof.
  intros Hx. apply list_eq. intros j.
  destruct (decide (i = j)) as [<-|Hne].
  - rewrite list_lookup_alter_eq, Hx, list_lookup_insert_eq; [done|].
    by apply lookup_lt_is_Some.
  - by rewrite list_lookup_alter_ne, list_lookup_insert_ne.
Qed.

Lemma prepared_backing k w :
  handle_valid k w → is_Some (prepared k w !! backing k w).
Proof.
  destruct k as [c|c|queryFn options]; unfold handle_valid, prepared, backing.
  - intros [col Hc]. rewrite list_lookup_alter_eq. rewrite Hc. by eexists.
  - intros [col Hc]. rewrite list_lookup_alter_eq, Hc. by eexists.
  - intros _. rewrite lookup_app_r, Nat.sub_diag by lia. by eexists.
Qed.

Lemma bind_run {A B} (m : M A) (k : A → M B) w :
  (m ≫= k) w =
    match m w with
    | (Return a, w') => k a w'
    | (Throw e, w') => (Throw e, w')
    end.
Proof. reflexivity. Qed.

Lemma startSyncImmediate_spec c w col :
  collections w !! c = Some col →
  startSyncImmediate c w =
    (Return tt,
     mkWorld (alter begin_sync c (collections w)) (subscriptions w) (cells w)
       (trace w ++ [EvStartSyncImmediate c])).
Proof.
  intros Hc. unfold startSyncImmediate. unfold_monad. rewrite Hc. cbn.
  by rewrite (insert_as_alter begin_sync _ _ _ Hc).
Qed.

Lemma begin_sync_idempotent (col : Collection) : begin_sync (begin_sync col) = begin_sync col.
Proof. unfold begin_sync. by destruct (syncStarted col) eqn:Hs; cbn; rewrite ?Hs. Qed.



Lemma alter_begin_sync_twice c (l : list Collection) :
  alter begin_sync c (alter begin_sync c l) = alter begin_sync c l.
Proof.
  apply list_eq. intros j. destruct (decide (c = j)) as [<-|Hne].
  - rewrite !list_lookup_alter_eq. destruct (l !! c); [|done]. cbn.
    by rewrite begin_sync_idempotent.
  - by rewrite !list_lookup_alter_ne.
Qed.

Lemma subscribeChanges_spec c cb w :
  is_Some (collections w !! c) →
  subscribeChanges c cb w =
    (Return (length (subscriptions w)),
     mkWorld (alter begin_sync c (collections w))
       (subscriptions w ++ [mkSubscription c cb true 0]) (cells w)
       (trace w ++ [EvSubscribeChanges c (length (subscriptions w))])).
Proof.
  intros [col Hc]. unfold subscribeChanges, register. unfold_monad. rewrite Hc. cbn.
  by rewrite (insert_as_alter begin_sync _ _ _ Hc).
Qed.

(** One evaluation of a bridging constructor, spelled out. *)
Lemma atom_of_spec k get w col :
  handle_valid k w →
  prepared k w !! backing k w = Some col →
  atom_of k get w =
    (Return (shown (bridge_of k) col),
     mkWorld (prepared k w)
       (subscriptions w
          ++ [mkSubscription (backing k w) (mkCallback (bridge_of k) (backing k w) get) true 0])
       (alter (push_finalizer (Unsubscribe (length (subscriptions w)))) get (cells w))
       (trace w ++ setup_event k w
          :: EvSubscribeChanges (backing k w) (length (subscriptions w))
          :: EvAddFinalizer get (Unsubscribe (length (subscriptions w)))
          :: sample_events (bridge_of k) (backing k w) col)).
Proof.
  intros Hv Hcol.
  destruct k as [c|c|queryFn options];
    unfold handle_valid, prepared, backing, atom_of, bridge_of, setup_event in *.
  - destruct Hv as [col0 Hc]. unfold makeCollectionAtom.
    rewrite bind_run, (startSyncImmediate_spec _ _ _ Hc).
    rewrite bind_run, subscribeChanges_spec by (cbn; eauto). cbn.
    rewrite alter_begin_sync_twice.
    unfold addFinalizer. rewrite bind_run. cbn.
    erewrite (initial_of_spec ArrayBridge) by (cbn; eauto). cbn.
    by rewrite <- !app_assoc.
  - destruct Hv as [col0 Hc]. unfold makeSingleCollectionAtom.
    rewrite bind_run, (startSyncImmediate_spec _ _ _ Hc).
    rewrite bind_run, subscribeChanges_spec by (cbn; eauto). cbn.
    rewrite alter_begin_sync_twice.
    unfold addFinalizer. rewrite bind_run. cbn.
    erewrite (initial_of_spec SingleBridge) by (cbn; eauto). cbn.
    by rewrite <- !app_assoc.
  - unfold makeQuery, createLiveQueryCollection. rewrite bind_run.
    rewrite bind_run, subscribeChanges_spec
      by (cbn; rewrite lookup_app_r, Nat.sub_diag by lia; eauto).
    cbn. rewrite alter_app_r_alt, Nat.sub_diag by lia. cbn.
    fold (created queryFn (startSync_or_default options)).
    unfold addFinalizer. rewrite bind_run. cbn.
    erewrite (initial_of_spec QueryBridge) by (cbn; eauto). cbn.
    by rewrite <- !app_assoc.
Qed.

Lemma mount_spec k w col :
  handle_valid k w →
  prepared k w !! backing k w = Some col →
  mount (atom_of k) w =
    (Return (length (cells w), shown (bridge_of k) col),
     mkWorld (prepared k w)
       (subscriptions w
          ++ [mkSubscription (backing k w)
                (mkCallback (bridge_of k) (backing k w) (length (cells w))) true 0])
       (cells w
          ++ [mkCell (Some (CellResult (shown (bridge_of k) col)))
                [Unsubscribe (length (subscriptions w))]])
       (trace w ++ setup_event k w
          :: EvSubscribeChanges (backing k w) (length (subscriptions w))
          :: EvAddFinalizer (length (cells w)) (Unsubscribe (length (subscriptions w)))
          :: sample_events (bridge_of k) (backing k w) col)).
Proof.
  intros Hv Hcol. unfold mount, allocate_cell, store_value. rewrite bind_run.
  rewrite bind_run.
  erewrite (atom_of_spec k (length (cells w))
              (with_cells (cells w ++ [mkCell None []]) w) col);
    [| by destruct k | by destruct k].
  cbn.
  replace (prepared k (with_cells (cells w ++ [mkCell None []]) w)) with (prepared k w)
    by by destruct k.
  replace (backing k (with_cells (cells w ++ [mkCell None []]) w)) with (backing k w)
    by by destruct k.
  replace (setup_event k (with_cells (cells w ++ [mkCell None []]) w)) with (setup_event k w)
    by by destruct k.
  rewrite bind_run. unfold with_cells. cbn. unfold ret.
  by rewrite !alter_app_r_alt, Nat.sub_diag by lia.
Qed.

(** *** Notifications *)

Lemma deliver_frame c w sub :
  collections (deliver c w sub) = collections w
  ∧ subscriptions (deliver c w sub) = subscriptions w
  ∧ length (cells (deliver c w sub)) = length (cells w).
Proof.
  unfold deliver. case_decide; [|done]. destruct (sub_active sub); [|done].
  rewrite run_callback_spec. destruct (collections w !! _); [|done].
  cbn. by rewrite length_alter.
Qed.

Lemma notify_frame c l w :
  collections (foldl (deliver c) w l) = collections w
  ∧ subscriptions (foldl (deliver c) w l) = subscriptions w
  ∧ length (cells (foldl (deliver c) w l)) = length (cells w).
Proof.
  revert w. induction l as [|sub l IH]; intros w; [done|]. cbn.
  destruct (IH (deliver c w sub)) as (-> & -> & ->). apply deliver_frame.
Qed.

Lemma visible_alter_eq v cell w cs ss tr :
  cell < length (cells w) →
  visible cell (mkWorld cs ss (alter (set_value v) cell (cells w)) tr) = Some v.
Proof.
  intros Hlt. unfold visible. cbn. rewrite list_lookup_alter_eq.
  destruct (lookup_lt_is_Some_2 _ _ Hlt) as [x ->]. done.
Qed.

Lemma visible_alter_ne (f : Cell → Cell) cell cell' w cs ss tr :
  cell' ≠ cell →
  visible cell (mkWorld cs ss (alter f cell' (cells w)) tr) = visible cell w.
Proof.
  intros Hne. unfold visible. cbn. by rewrite list_lookup_alter_ne.
Qed.

Lemma visible_lt cell w v : visible cell w = Some v → cell < length (cells w).
Proof.
  unfold visible. intros Hv. apply lookup_lt_is_Some.
  destruct (cells w !! cell); [by eexists | done].
Qed.

Lemma deliver_tracks b c cell c' w sub :
  owned b c cell [sub] → tracks b c cell w → tracks b c cell (deliver c' w sub).
Proof.
  intros Hown (col & Hc & Hv). unfold deliver.
  case_decide; [|by exists col]. destruct (sub_active sub); [|by exists col].
  rewrite run_callback_spec.
  destruct (decide (cb_get (sub_callback sub) = cell)) as [Heq|Hne].
  - rewrite (Hown sub) by (done || by left). cbn. rewrite Hc.
    exists col. split; [done|]. apply visible_alter_eq. by eapply visible_lt.
  - destruct (collections w !! cb_collection (sub_callback sub)); [|by exists col].
    exists col. split; [done|]. by rewrite visible_alter_ne.
Qed.

Lemma notify_tracks b c cell c' l w :
  owned b c cell l → tracks b c cell w → tracks b c cell (foldl (deliver c') w l).
Proof.
  revert w. induction l as [|sub l IH]; intros w Hown Ht; [done|]. cbn.
  apply IH.
  - intros s Hs. apply Hown. by right.
  - apply deliver_tracks; [|done]. intros s Hs. apply Hown.
    apply list_elem_of_singleton in Hs as ->. by left.
Qed.

Lemma deliver_refresh b c cell w sub :
  sub_callback sub = mkCallback b c cell → sub_active sub = true →
  is_Some (collections w !! c) → cell < length (cells w) →
  tracks b c cell (deliver (sub_collection sub) w sub).
Proof.
  intros Hcb Hact [col Hc] Hlt. unfold deliver.
  rewrite decide_True by done. rewrite Hact, run_callback_spec, Hcb. cbn. rewrite Hc.
  exists col. split; [done|]. by apply visible_alter_eq.
Qed.

Lemma notify_refresh b c cell l w :
  owned b c cell l →
  (∃ sub, sub ∈ l ∧ sub_callback sub = mkCallback b c cell
          ∧ sub_active sub = true ∧ sub_collection sub = c) →
  is_Some (collections w !! c) → cell < length (cells w) →
  tracks b c cell (foldl (deliver c) w l).
Proof.
  revert w. induction l as [|sub l IH]; intros w Hown (s & Hs & Hcb & Hact & Hsc) Hc Hlt.
  { by apply elem_of_nil in Hs. }
  cbn. apply elem_of_cons in Hs as [<-|Hs].
  - apply notify_tracks.
    + intros s' Hs'. apply Hown. by right.
    + rewrite <- Hsc at 2. by eapply deliver_refresh.
  - destruct (deliver_frame c w sub) as (Hcs & _ & Hlen).
    apply IH.
    + intros s' Hs'. apply Hown. by right.
    + by exists s.
    + by rewrite Hcs.
    + by rewrite Hlen.
Qed.

Lemma transition_collection c s w :
  collections (transition c s w) = alter (install s) c (collections w)
  ∧ subscriptions (transition c s w) = subscriptions w.
Proof.
  unfold transition, notify.
  destruct (notify_frame c
              (subscriptions (with_collections (alter (install s) c (collections w)) w))
              (with_collections (alter (install s) c (collections w)) w)) as (-> & -> & _).
  done.
Qed.

Lemma transition_bridged b c cell c' s w :
  bridged b c cell w → bridged b c cell (transition c' s w).
Proof.
  intros ((col & Hc & Hv) & Hown & Hsub).
  destruct (transition_collection c' s w) as (Hcs & Hss).
  split; [|by rewrite Hss].
  unfold transition, notify. cbn.
  destruct (decide (c' = c)) as [->|Hne].
  - apply notify_refresh; cbn; [done|done| |by eapply visible_lt].
    rewrite list_lookup_alter_eq, Hc. by eexists.
  - apply notify_tracks; [done|]. exists col. cbn.
    by rewrite list_lookup_alter_ne.
Qed.

Lemma transitions_bridged b c cell steps w :
  bridged b c cell w → bridged b c cell (transitions steps w).
Proof.
  revert w. induction steps as [|[c' s] steps IH]; intros w Hb; [done|].
  cbn. apply IH. by apply transition_bridged.
Qed.

Lemma mount_bridged k w :
  handle_valid k w → subscribers_mounted w →
  bridged (bridge_of k) (backing k w) (length (cells w)) (exec (mount (atom_of k)) w).
Proof.
  intros Hv Hm. destruct (prepared_backing k w Hv) as [col Hcol].
  unfold exec. rewrite (mount_spec k w col Hv Hcol). cbn.
  split; [|split].
  - exists col. split; [done|]. unfold visible. cbn.
    by rewrite lookup_app_r, Nat.sub_diag by lia.
  - intros sub Hs Hget. cbn in Hs. apply elem_of_app in Hs as [Hs|Hs].
    + apply Hm in Hs. lia.
    + apply list_elem_of_singleton in Hs. by subst.
  - eexists. split; [apply elem_of_app; right; by apply list_elem_of_singleton|done].
Qed.

Lemma shown_not_success b col :
  status col = StatusError ∨ status col = CleanedUp → ∀ p, shown b col ≠ Success p.
Proof. unfold shown. by intros [-> | ->] p. Qed.

Lemma atom_of_phases k get w :
  atom_of k get w = (subscribe_phase k get ≫= sample_phase k get) w.
Proof.
  destruct k as [c|c|queryFn options]; cbn.
  - unfold makeCollectionAtom, sample_phase. rewrite !bind_run.
    destruct (startSyncImmediate c w) as [[[]|e] w1]; [|done].
    rewrite !bind_run. by destruct (subscribeChanges c _ w1) as [[s|e] w2].
  - unfold makeSingleCollectionAtom, sample_phase. rewrite !bind_run.
    destruct (startSyncImmediate c w) as [[[]|e] w1]; [|done].
    rewrite !bind_run. by destruct (subscribeChanges c _ w1) as [[s|e] w2].
  - unfold makeQuery, sample_phase. rewrite !bind_run.
    destruct (createLiveQueryCollection queryFn _ _ w) as [[c|e] w1]; [|done].
    rewrite !bind_run. by destruct (subscribeChanges c _ w1) as [[s|e] w2].
Qed.

Lemma subscribe_phase_spec k get w :
  handle_valid k w →
  subscribe_phase k get w =
    (Return (backing k w, length (subscriptions w)),
     mkWorld (prepared k w)
       (subscriptions w
          ++ [mkSubscription (backing k w) (mkCallback (bridge_of k) (backing k w) get) true 0])
       (cells w)
       (trace w ++ [setup_event k w;
                    EvSubscribeChanges (backing k w) (length (subscriptions w))])).
Proof.
  intros Hv. destruct (prepared_backing k w Hv) as [col Hcol].
  destruct k as [c|c|queryFn options];
    unfold handle_valid, prepared, backing, bridge_of, setup_event, subscribe_phase in *.
  - destruct Hv as [col0 Hc].
    rewrite bind_run, (startSyncImmediate_spec _ _ _ Hc).
    rewrite bind_run, subscribeChanges_spec by (cbn; eauto).
    cbn. by rewrite alter_begin_sync_twice, <- !app_assoc.
  - destruct Hv as [col0 Hc].
    rewrite bind_run, (startSyncImmediate_spec _ _ _ Hc).
    rewrite bind_run, subscribeChanges_spec by (cbn; eauto).
    cbn. by rewrite alter_begin_sync_twice, <- !app_assoc.
  - unfold createLiveQueryCollection. rewrite bind_run.
    rewrite bind_run, subscribeChanges_spec
      by (cbn; rewrite lookup_app_r, Nat.sub_diag by lia; eauto).
    cbn. rewrite alter_app_r_alt, Nat.sub_diag by lia. cbn.
    fold (created queryFn (startSync_or_default options)).
    by rewrite <- !app_assoc.
Qed.

Lemma notify_refresh_last b c cell l sub w :
  sub_callback sub = mkCallback b c cell → sub_active sub = true →
  sub_collection sub = c →
  is_Some (collections w !! c) → cell < length (cells w) →
  tracks b c cell (foldl (deliver c) w (l ++ [sub])).
Proof.
  intros Hcb Hact Hsc Hc Hlt. rewrite foldl_app. cbn.
  destruct (notify_frame c l w) as (Hcs & _ & Hlen).
  rewrite <- Hsc at 2. apply deliver_refresh; [done|done| |].
  - by rewrite Hcs.
  - by rewrite Hlen.
Qed.

(** ** The claims *)

(** C1. Each of the three bridging constructors applies the status table
    of section 3, and applies it identically at its two sites.  The first
    synchronous read returns the table's row for the status the collection
    then has; and in any later world the closure it registered with
    [subscribeChanges] pushes, for whatever status [col2] has (any of the
    five), exactly the row of that status: [Initial true] for idle and
    loading, [Success] of the projected entries for ready, a [Failure]
    whose message says "failed to load" for error and one that says "has
    been cleaned up" for cleaned-up.  What the closure pushes is what the
    first-read block would return in that same world. *)
Theorem status_table_applied (k : Constructor) (get : CellRef) (w : World) :
  handle_valid k w →
  let b := bridge_of k in
  let c := backing k w in
  ∃ r w' col,
    atom_of k get w = (Return r, w')
    ∧ collections w' !! c = Some col
    ∧ table_row (status col) (projection_of b (config col) (coll_entries col)) r
    ∧ last (subscriptions w') = Some (mkSubscription c (mkCallback b c get) true 0)
    ∧ ∀ w2 col2,
        collections w2 !! c = Some col2 →
        ∃ r2,
          cells (exec (run_callback (mkCallback b c get)) w2)
            = alter (set_value (CellResult r2)) get (cells w2)
          ∧ fst (initial_of b c w2) = Return r2
          ∧ table_row (status col2) (projection_of b (config col2) (coll_entries col2)) r2.
Proof.
  intros Hv b c. destruct (prepared_backing k w Hv) as [col Hcol].
  eexists _, _, col. rewrite (atom_of_spec k get w col Hv Hcol).
  split; [done|]. cbn. split; [done|]. split; [apply shown_in_table|].
  split; [by rewrite last_snoc|].
  intros w2 col2 Hc2. exists (shown b col2).
  rewrite run_callback_spec. cbn. fold c. rewrite Hc2. cbn.
  rewrite (initial_of_spec b c w2 col2 Hc2). cbn.
  split; [done|]. split; [done|]. apply shown_in_table.
Qed.

(** C2. In every evaluation of a bridging constructor the call to
    [subscribeChanges] precedes the first read of [collection.status]:
    the evaluation's own log has the subscription, and no status read
    before it, and the status read after it.  Consequently a transition of
    the collection that lands between the two is not missed: cut the read
    function at the subscription ([atom_of_phases]), let the collection
    make any transition there, and the rest of the evaluation returns the
    table's row for the new status, which the registered closure has
    already pushed into the cell. *)
Theorem subscribed_before_sampling (k : Constructor) (get : CellRef) (w : World) :
  handle_valid k w →
  get < length (cells w) →
  let b := bridge_of k in
  let c := backing k w in
  (∀ w0, atom_of k get w0 = (subscribe_phase k get ≫= sample_phase k get) w0)
  ∧ (∃ (before after : list Event) s st,
        trace (exec (atom_of k get) w)
          = trace w ++ before ++ EvSubscribeChanges c s :: after
        ∧ EvStatus c st ∈ after
        ∧ ∀ c' st', EvStatus c' st' ∉ before)
  ∧ ∀ snap, ∃ s w1,
        subscribe_phase k get w = (Return (c, s), w1)
        ∧ ∃ v w3,
            sample_phase k get (c, s) (transition c snap w1) = (Return v, w3)
            ∧ visible get (transition c snap w1) = Some (CellResult v)
            ∧ table_row (snap_status snap)
                (projection_of b (snap_config snap) (snap_entries snap)) v.
Proof.
  intros Hv Hget b c. split; [intros w0; apply atom_of_phases|]. split.
  - destruct (prepared_backing k w Hv) as [col Hcol].
    exists [setup_event k w],
      (EvAddFinalizer get (Unsubscribe (length (subscriptions w)))
         :: sample_events b c col),
      (length (subscriptions w)), (status col).
    unfold exec. rewrite (atom_of_spec k get w col Hv Hcol). cbn.
    split; [done|]. split.
    + right. by left.
    + intros c' st' Hin. apply list_elem_of_singleton in Hin. by destruct k.
  - intros snap. eexists _, _. split; [apply (subscribe_phase_spec k get w Hv)|].
    destruct (prepared_backing k w Hv) as [col Hcol].
    set (w1 := mkWorld _ _ _ _).
    destruct (transition_collection c snap w1) as (Hcs & Hss).
    assert (Hnew : collections (transition c snap w1) !! c = Some (install snap col)).
    { rewrite Hcs. subst w1 c. cbn. by rewrite list_lookup_alter_eq, Hcol. }
    assert (Htr : tracks b c get (transition c snap w1)).
    { unfold transition, notify. cbn. apply notify_refresh_last; cbn; try done.
      subst c. rewrite list_lookup_alter_eq, Hcol. by eexists. }
    destruct Htr as (col' & Hc' & Hvis). rewrite Hnew in Hc'. injection Hc' as <-.
    exists (shown b (install snap col)). eexists.
    unfold sample_phase, addFinalizer. rewrite bind_run. cbn.
    split; [by erewrite (initial_of_spec b c) by (cbn; eauto)|].
    split; [done|]. apply (shown_in_table b (install snap col)).
Qed.

(** Right after its collection has made the transition [snap], a mounted
    bridging cell shows what its bridge derives from [snap]. *)
Lemma mounted_cell_refreshed (k : Constructor) (w : World)
    (steps : list (nat * Snapshot)) (snap : Snapshot) :
  handle_valid k w →
  subscribers_mounted w →
  ∃ col,
    visible (length (cells w))
      (transition (backing k w) snap (transitions steps (exec (mount (atom_of k)) w)))
      = Some (CellResult (shown (bridge_of k) (install snap col))).
Proof.
  intros Hv Hm.
  pose proof (transitions_bridged _ _ _ steps _ (mount_bridged k w Hv Hm)) as Hb.
  destruct Hb as ((col & Hc & Hvis) & Hown & Hsub).
  exists col.
  destruct (transition_bridged _ _ _ (backing k w) snap _
              (conj (ex_intro _ col (conj Hc Hvis)) (conj Hown Hsub)))
    as ((col' & Hc' & Hvis') & _).
  destruct (transition_collection (backing k w) snap
              (transitions steps (exec (mount (atom_of k)) w))) as (Hcs & _).
  rewrite Hcs, list_lookup_alter_eq, Hc in Hc'. injection Hc' as <-. exact Hvis'.
Qed.

(** C3. Once a bridging cell is mounted, whatever transitions the
    collections go through, the value a reader sees in the cell is the
    table's row for the status its collection has now; in particular, right
    after a transition of its collection to [snap], it is the row of
    [snap]'s status, and a [Success] does not outlive a transition to error
    or cleaned-up. *)
Theorem visible_value_follows_status (k : Constructor) (w : World)
    (steps : list (nat * Snapshot)) (snap : Snapshot) :
  handle_valid k w →
  subscribers_mounted w →
  let b := bridge_of k in
  let c := backing k w in
  let cell := length (cells w) in
  ∃ r w1,
    mount (atom_of k) w = (Return (cell, r), w1)
    ∧ (∃ col v,
          collections (transitions steps w1) !! c = Some col
          ∧ visible cell (transitions steps w1) = Some (CellResult v)
          ∧ table_row (status col) (projection_of b (config col) (coll_entries col)) v)
    ∧ ∃ v,
        visible cell (transition c snap (transitions steps w1)) = Some (CellResult v)
        ∧ table_row (snap_status snap)
            (projection_of b (snap_config snap) (snap_entries snap)) v
        ∧ (snap_status snap = StatusError ∨ snap_status snap = CleanedUp →
           ∀ p, v ≠ Success p).
Proof.
  intros Hv Hm b c cell.
  pose proof (transitions_bridged _ _ _ steps _ (mount_bridged k w Hv Hm)) as Hb.
  destruct (mounted_cell_refreshed k w steps snap Hv Hm) as (col1 & Hafter).
  destruct (prepared_backing k w Hv) as [col0 Hcol0].
  pose proof (mount_spec k w col0 Hv Hcol0) as Hmount.
  unfold exec in Hb, Hafter. rewrite Hmount in Hb, Hafter. cbn [snd] in Hb, Hafter.
  eexists _, _. split; [exact Hmount|].
  destruct Hb as ((col & Hc & Hvis) & _). split.
  - exists col, (shown b col). split; [done|]. split; [done|]. apply shown_in_table.
  - exists (shown b (install snap col1)). split; [exact Hafter|]. split.
    + apply (shown_in_table b (install snap col1)).
    + apply (shown_not_success b (install snap col1)).
Qed.

(** C10. For the collection created by [makeQuery]: whenever it is ready,
    the [Success] value is the first entry's value (undefined when there is
    none) if its configuration has [singleResult === true], and the ordered
    array of all values otherwise.  This holds at the first read, for the
    collection as created, and after every notification, for the
    configuration the collection has at that notification (the transition
    [snap] may carry a different configuration each time). *)
Theorem single_result_projection (queryFn : QueryFn) (options : option QueryOptions)
    (w : World) (steps : list (nat * Snapshot)) (snap : Snapshot) :
  subscribers_mounted w →
  let c := length (collections w) in
  let cell := length (cells w) in
  ∃ r w1 col,
    mount (makeQuery queryFn options) w = (Return (cell, r), w1)
    ∧ collections w1 !! c = Some col
    ∧ (status col = Ready →
       r = Success (single_or_all (config col) (coll_entries col)))
    ∧ (snap_status snap = Ready →
       visible cell (transition c snap (transitions steps w1))
         = Some (CellResult (Success (single_or_all (snap_config snap) (snap_entries snap)))))
    ∧ (∀ entries, single_or_all (Some (mkConfig (JsBool true))) entries
                  = match entries with [] => PUndefined | (_, v) :: _ => PEntity v end)
    ∧ (∀ cfg entries, from_option singleResult JsUndefined cfg ≠ JsBool true →
                      single_or_all cfg entries = PArray (map snd entries)).
Proof.
  intros Hm c cell.
  destruct (mounted_cell_refreshed (ByQuery queryFn options) w steps snap I Hm)
    as (col1 & Hafter).
  assert (Hcol : prepared (ByQuery queryFn options) w !! c
                 = Some (created queryFn (startSync_or_default options))).
  { cbn. by rewrite lookup_app_r, Nat.sub_diag by lia. }
  pose proof (mount_spec (ByQuery queryFn options) w _ I Hcol) as Hspec.
  cbn [atom_of] in Hspec, Hafter. unfold exec in Hafter. rewrite Hspec in Hafter.
  eexists _, _, _. split; [exact Hspec|]. split; [exact Hcol|]. split; [|split; [|split]].
  - intros Hr. unfold shown. by rewrite Hr.
  - intros Hr. unfold shown in Hafter. cbn in Hafter. rewrite Hr in Hafter. exact Hafter.
  - done.
  - intros [[[| |[|]| |]]|] entries Hne; done.
Qed.

(** C9. One evaluation of a bridging constructor opens exactly one
    subscription, to its backing collection, and registers exactly one
    finalizer, which unsubscribes that very subscription.  Tearing the cell
    down releases the subscription once; tearing it down again releases
    nothing. *)
Theorem one_subscription_one_release (k : Constructor) (w : World) :
  handle_valid k w →
  let cell := length (cells w) in
  let s := length (subscriptions w) in
  let callback := mkCallback (bridge_of k) (backing k w) cell in
  ∃ r w1,
    mount (atom_of k) w = (Return (cell, r), w1)
    ∧ subscriptions w1 = subscriptions w ++ [mkSubscription (backing k w) callback true 0]
    ∧ cell_finalizers <$> cells w1 !! cell = Some [Unsubscribe s]
    ∧ subscriptions (teardown cell w1)
        = subscriptions w ++ [mkSubscription (backing k w) callback false 1]
    ∧ trace (teardown cell w1) = trace w1 ++ [EvUnsubscribe s]
    ∧ subscriptions (teardown cell (teardown cell w1)) = subscriptions (teardown cell w1)
    ∧ trace (teardown cell (teardown cell w1)) = trace (teardown cell w1).
Proof.
  intros Hv cell s callback.
  destruct (prepared_backing k w Hv) as [col Hcol].
  eexists _, _. split; [apply (mount_spec k w col Hv Hcol)|].
  set (w1 := mkWorld _ _ _ _).
  assert (Hcell : cells w1 !! cell
                  = Some (mkCell (Some (CellResult (shown (bridge_of k) col)))
                            [Unsubscribe s])).
  { subst w1 cell. cbn. by rewrite lookup_app_r, Nat.sub_diag by lia. }
  assert (Hsub : subscriptions w1 !! s
                 = Some (mkSubscription (backing k w) callback true 0)).
  { subst w1 s. cbn. by rewrite lookup_app_r, Nat.sub_diag by lia. }
  assert (Hdown : teardown cell w1
                  = mkWorld (collections w1)
                      (subscriptions w
                         ++ [mkSubscription (backing k w) callback false 1])
                      (cells w ++ [mkCell (Some (CellResult (shown (bridge_of k) col))) []])
                      (trace w1 ++ [EvUnsubscribe s])).
  { unfold teardown. rewrite Hcell. clear Hcell Hsub. subst w1 s cell callback.
    cbn. unfold exec, unsubscribe. cbn.
    rewrite lookup_app_r, Nat.sub_diag by lia. cbn.
    unfold log, with_subscriptions. cbn. f_equal.
    - by rewrite insert_app_r_alt, Nat.sub_diag by lia.
    - by rewrite alter_app_r_alt, Nat.sub_diag by lia. }
  split; [done|]. split; [by rewrite Hcell|].
  rewrite Hdown. split; [done|]. split; [done|].
  unfold teardown. cbn. subst cell. by rewrite lookup_app_r, Nat.sub_diag by lia.
Qed.

(** *** The probe *)

Lemma run_chain_direct_head m args rest flag w :
  run_chain (mkStep [] m args :: rest) ProxyBuilder flag w =
    run_chain rest ProxyBuilder false (log (EvProxyGet m) w).
Proof. reflexivity. Qed.

Lemma run_chain_bent_head p path m args rest flag w :
  run_chain (mkStep (p :: path) m args :: rest) ProxyBuilder flag w =
    (Throw match path with
           | [] => "TypeError: not a function"
           | _ :: _ => "TypeError: cannot read properties of undefined"
           end,
     log (EvProxyGet p) w).
Proof. by destruct path as [|p2 [|p3 path]]. Qed.

Lemma run_chain_straight calls flag w :
  straight calls = true →
  run_chain calls ProxyBuilder flag w =
    (Return (ProxyBuilder, match calls with [] => flag | _ :: _ => false end),
     mkWorld (collections w) (subscriptions w) (cells w) (trace w ++ probe_events calls)).
Proof.
  revert flag w. induction calls as [|[path m args] rest IH]; intros flag w Hs.
  - cbn. unfold ret. destruct w. cbn. by rewrite app_nil_r.
  - cbn in Hs. apply andb_true_iff in Hs as [Hd Hs].
    destruct path as [|p path]; [|done].
    rewrite run_chain_direct_head, (IH _ _ Hs). cbn. rewrite <- app_assoc.
    by destruct rest.
Qed.

Lemma run_chain_bent calls flag w :
  straight calls = false →
  ∃ e touched,
    run_chain calls ProxyBuilder flag w =
      (Throw e,
       mkWorld (collections w) (subscriptions w) (cells w) (trace w ++ probe_events touched)).
Proof.
  revert flag w. induction calls as [|[path m args] rest IH]; intros flag w Hs; [done|].
  destruct path as [|p path].
  - cbn in Hs. destruct (IH false (log (EvProxyGet m) w) Hs) as (e & touched & Hrun).
    exists e, (mkCall m args :: touched).
    rewrite run_chain_direct_head, Hrun. cbn. by rewrite <- app_assoc.
  - rewrite run_chain_bent_head. by eexists _, [mkCall p []].
Qed.

Lemma invoke_straight queryFn flag w :
  straight (steps_of queryFn) = true →
  invoke queryFn ProxyBuilder flag w =
    (Return (match queryFn with
             | Builds chain => (ProxyBuilder, match chain with [] => flag | _ => false end)
             | Declines touched marker =>
                 (marker_value marker, match touched with [] => flag | _ => false end)
             end),
     mkWorld (collections w) (subscriptions w) (cells w)
       (trace w ++ probe_events (steps_of queryFn))).
Proof.
  destruct queryFn as [chain|touched marker]; cbn; intros Hs.
  - by apply run_chain_straight.
  - by rewrite bind_run, run_chain_straight.
Qed.

Lemma invoke_bent queryFn flag w :
  straight (steps_of queryFn) = false →
  ∃ e touched,
    invoke queryFn ProxyBuilder flag w =
      (Throw e,
       mkWorld (collections w) (subscriptions w) (cells w) (trace w ++ probe_events touched)).
Proof.
  destruct queryFn as [chain|tried marker]; cbn; intros Hs.
  - by apply run_chain_bent.
  - destruct (run_chain_bent tried flag w Hs) as (e & touched & Hrun).
    exists e, touched. by rewrite bind_run, Hrun.
Qed.


(** C6. Against the stand-in, every property access hands back a callable
    and calling it hands back the stand-in, so the probe returns for a
    descriptor all of whose steps are made on the builder itself, however
    many it chains.  It does not return for the others: on
    [(q) => q.from({ todos }).fn.where(cb)], a descriptor that [makeQuery]
    accepts, the stand-in answers [fn] with that same callable, whose
    [where] is [undefined], and calling it throws a TypeError out of the
    evaluation of the [makeQueryConditional] cell (which has touched no
    collection, subscription or cell by then).  The probe returns exactly
    for the descriptors that never go through a member of what the builder
    handed out; returning or throwing, it executes nothing: collections,
    subscriptions and cells stay as they were. *)
Theorem probe_throws_through_member (options : option QueryOptions) (get : CellRef)
    (w : World) :
  (∃ w', makeQueryConditional (Builds through_fn) options get w
           = (Throw "TypeError: not a function", w')
         ∧ collections w' = collections w
         ∧ subscriptions w' = subscriptions w
         ∧ cells w' = cells w)
  ∧ (∃ r w', makeQuery through_fn options get w = (Return r, w'))
  ∧ (∀ property fl w0, ∃ w1,
        js_get ProxyBuilder property fl w0 = (Return (ProxyMethod, false), w1)
        ∧ (∀ args, js_call ProxyMethod args w1 = (Return ProxyBuilder, w1))
        ∧ ∀ member, js_get ProxyMethod member false w1 = (Return (ProbeUndefined, false), w1))
  ∧ (∀ args w0, js_call ProbeUndefined args w0 = (Throw "TypeError: not a function", w0))
  ∧ (∀ queryFn fl w0,
        (∃ v w1, invoke queryFn ProxyBuilder fl w0 = (Return v, w1))
        ↔ straight (steps_of queryFn) = true)
  ∧ (∀ queryFn fl w0,
        collections (exec (invoke queryFn ProxyBuilder fl) w0) = collections w0
        ∧ subscriptions (exec (invoke queryFn ProxyBuilder fl) w0) = subscriptions w0
        ∧ cells (exec (invoke queryFn ProxyBuilder fl) w0) = cells w0).
Proof.
  split; [|split; [|split; [|split; [|split]]]].
  - by eexists.
  - assert (Hcol : prepared (ByQuery through_fn options) w !! length (collections w)
                   = Some (created through_fn (startSync_or_default options))).
    { cbn. by rewrite lookup_app_r, Nat.sub_diag by lia. }
    pose proof (atom_of_spec (ByQuery through_fn options) get w _ I Hcol) as Hspec.
    cbn [atom_of] in Hspec. by eexists _, _.
  - intros property fl w0. by eexists.
  - done.
  - intros queryFn fl w0. destruct (straight (steps_of queryFn)) eqn:Hs.
    + split; [done|]. intros _. rewrite invoke_straight by done. by eexists _, _.
    + split; [|done]. intros (v & w1 & Hinv).
      destruct (invoke_bent queryFn fl w0 Hs) as (e & touched & Hthrow).
      by rewrite Hthrow in Hinv.
  - intros queryFn fl w0. unfold exec. destruct (straight (steps_of queryFn)) eqn:Hs.
    + by rewrite invoke_straight.
    + destruct (invoke_bent queryFn fl w0 Hs) as (e & touched & ->). done.
Qed.

(** C4. If the descriptor, invoked with the stand-in, returns [null] or
    [undefined], the evaluation of the [makeQueryConditional] cell returns
    [undefined]; it creates no collection, opens no subscription, registers
    nothing on any cell, and the only calls it logs are property accesses on
    the stand-in: no [createLiveQueryCollection], no [startSyncImmediate], no
    [subscribeChanges]. *)
Theorem disabled_query_is_absent (queryFn : ConditionalQueryFn)
    (options : option QueryOptions) (get : CellRef) (w : World) :
  (∃ query fl w0, invoke queryFn ProxyBuilder false w = (Return (query, fl), w0)
                  ∧ is_nullish query = true) →
  ∃ w',
    makeQueryConditional queryFn options get w = (Return None, w')
    ∧ collections w' = collections w
    ∧ subscriptions w' = subscriptions w
    ∧ cells w' = cells w
    ∧ ∃ touched, trace w' = trace w ++ map (fun call => EvProxyGet (method call)) touched.
Proof.
  intros (query & fl & w0 & Hinv & Hnull).
  unfold makeQueryConditional. rewrite bind_run, Hinv. rewrite Hnull. cbn.
  eexists. split; [done|].
  destruct (straight (steps_of queryFn)) eqn:Hs.
  - rewrite invoke_straight in Hinv by done. injection Hinv as _ <-. cbn.
    repeat (split; [done|]). by eexists.
  - destruct (invoke_bent queryFn false w Hs) as (e & touched & Hthrow).
    by rewrite Hthrow in Hinv.
Qed.

(** C7. The evaluation of a [makeQueryUnsafe] cell always returns (it
    never throws): it mounts a [makeQuery] cell for the same descriptor and
    options, and returns the projection that cell holds when it holds a
    [Success], and [undefined] when it holds [Initial] or [Failure]. *)
Theorem unsafe_collapses_result (queryFn : QueryFn) (options : option QueryOptions)
    (get : CellRef) (w : World) :
  ∃ inner r w1 p,
    mount (makeQuery queryFn options) w = (Return (inner, r), w1)
    ∧ visible inner w1 = Some (CellResult r)
    ∧ makeQueryUnsafe queryFn options get w = (Return p, log (EvGet inner) w1)
    ∧ match r with
      | Success value => p = value
      | Initial _ | Failure _ => p = PUndefined
      end.
Proof.
  assert (Hcol : prepared (ByQuery queryFn options) w !! length (collections w)
                 = Some (created queryFn (startSync_or_default options))).
  { cbn. by rewrite lookup_app_r, Nat.sub_diag by lia. }
  pose proof (mount_spec (ByQuery queryFn options) w _ I Hcol) as Hspec.
  cbn [atom_of] in Hspec.
  eexists _, _, _, _. split; [exact Hspec|]. split.
  { unfold visible. cbn. by rewrite lookup_app_r, Nat.sub_diag by lia. }
  unfold makeQueryUnsafe, get_atom. rewrite !bind_run, Hspec. cbn.
  split; [done|]. by destruct (shown _ _).
Qed.

(** *** The shape of one evaluation *)

Lemma mount_dangling k w :
  ¬ handle_valid k w →
  mount (atom_of k) w
    = (Throw "dangling collection handle", with_cells (cells w ++ [mkCell None []]) w).
Proof.
  intros Hv. unfold mount, allocate_cell. rewrite bind_run.
  destruct k as [c|c|queryFn options]; unfold handle_valid in Hv; [| |by destruct Hv].
  - destruct (collections w !! c) as [col|] eqn:Hc; [by destruct Hv; eexists|].
    rewrite bind_run. unfold atom_of, makeCollectionAtom, startSyncImmediate.
    unfold_monad. cbn. by rewrite Hc.
  - destruct (collections w !! c) as [col|] eqn:Hc; [by destruct Hv; eexists|].
    rewrite bind_run. unfold atom_of, makeSingleCollectionAtom, startSyncImmediate.
    unfold_monad. cbn. by rewrite Hc.
Qed.

Lemma created_backing queryFn options w :
  prepared (ByQuery queryFn options) w !! length (collections w)
    = Some (created queryFn (startSync_or_default options)).
Proof. cbn. by rewrite lookup_app_r, Nat.sub_diag by lia. Qed.

Lemma mount_unsafe_spec queryFn options w :
  let r := shown QueryBridge (created queryFn (startSync_or_default options)) in
  ∃ tr,
    mount (makeQueryUnsafe queryFn options) w =
      (Return (length (cells w), getOrElse r constUndefined),
       mkWorld (collections w ++ [created queryFn (startSync_or_default options)])
         (subscriptions w
            ++ [mkSubscription (length (collections w))
                  (mkCallback QueryBridge (length (collections w)) (S (length (cells w))))
                  true 0])
         (cells w ++ [mkCell (Some (CellPlain (getOrElse r constUndefined))) [];
                      mkCell (Some (CellResult r)) [Unsubscribe (length (subscriptions w))]])
         tr).
Proof.
  intros r. eexists.
  unfold mount at 1. unfold allocate_cell. rewrite bind_run. rewrite bind_run.
  unfold makeQueryUnsafe, get_atom. rewrite !bind_run.
  pose proof (mount_spec (ByQuery queryFn options)
                (with_cells (cells w ++ [mkCell None []]) w) _ I
                (created_backing queryFn options _)) as Hm.
  cbn [atom_of] in Hm. rewrite Hm. clear Hm. cbn.
  unfold store_value. unfold_monad. cbn. unfold with_cells. cbn.
  rewrite ?length_app. cbn. rewrite ?Nat.add_1_r. f_equal. f_equal.
  rewrite <- (app_assoc (cells w)). cbn.
  by rewrite alter_app_r_alt, Nat.sub_diag by lia.
Qed.

Lemma mount_conditional_builds_spec chain options w :
  straight chain = true →
  let r := shown QueryBridge (created chain (startSync_or_default options)) in
  ∃ tr,
    mount (makeQueryConditional (Builds chain) options) w =
      (Return (length (cells w), Some r),
       mkWorld (collections w ++ [created chain (startSync_or_default options)])
         (subscriptions w
            ++ [mkSubscription (length (collections w))
                  (mkCallback QueryBridge (length (collections w)) (S (length (cells w))))
                  true 0])
         (cells w ++ [mkCell (Some (CellOptional (Some r))) [];
                      mkCell (Some (CellResult r)) [Unsubscribe (length (subscriptions w))]])
         tr).
Proof.
  intros Hs r. eexists.
  unfold mount at 1. unfold allocate_cell. rewrite bind_run. rewrite bind_run.
  unfold makeQueryConditional. rewrite bind_run, invoke_straight by done. cbn.
  replace (if match chain with [] => false | _ :: _ => false end then _ else _)
    with (get_atom (makeQuery chain options) ≫= λ result, mret (Some result))
    by by destruct chain.
  unfold get_atom. rewrite !bind_run.
  set (probed := mkWorld _ _ _ _).
  pose proof (mount_spec (ByQuery chain options) probed _ I
                (created_backing chain options _)) as Hm.
  cbn [atom_of] in Hm. rewrite Hm. clear Hm. cbn.
  unfold store_value. unfold_monad. cbn. unfold with_cells. cbn.
  rewrite ?length_app. cbn. rewrite ?Nat.add_1_r. f_equal. f_equal.
  rewrite <- (app_assoc (cells w)). cbn.
  by rewrite alter_app_r_alt, Nat.sub_diag by lia.
Qed.

Lemma mount_conditional_declines_spec touched marker options w :
  straight touched = true →
  mount (makeQueryConditional (Declines touched marker) options) w =
    (Return (length (cells w), None),
     mkWorld (collections w) (subscriptions w)
       (cells w ++ [mkCell (Some (CellOptional None)) []])
       (trace w ++ probe_events touched)).
Proof.
  intros Hs.
  unfold mount at 1. unfold allocate_cell. rewrite bind_run. rewrite bind_run.
  unfold makeQueryConditional. rewrite bind_run, invoke_straight by done. cbn.
  replace (is_nullish (marker_value marker)) with true by by destruct marker.
  cbn. rewrite bind_run. cbn. unfold ret.
  by rewrite alter_app_r_alt, Nat.sub_diag by lia.
Qed.

Lemma mount_conditional_bent queryFn options w :
  straight (steps_of queryFn) = false →
  ∃ e touched,
    mount (makeQueryConditional queryFn options) w =
      (Throw e,
       mkWorld (collections w) (subscriptions w) (cells w ++ [mkCell None []])
         (trace w ++ probe_events touched)).
Proof.
  intros Hs.
  destruct (invoke_bent queryFn false (with_cells (cells w ++ [mkCell None []]) w) Hs)
    as (e & touched & Hthrow).
  exists e, touched.
  unfold mount at 1. unfold allocate_cell. rewrite bind_run. rewrite bind_run.
  unfold makeQueryConditional. by rewrite bind_run, Hthrow.
Qed.

Lemma evaluate_grows k w : grows w (exec (mount (atom_of k)) w).
Proof.
  unfold exec.
  assert (Hdec : handle_valid k w ∨ ¬ handle_valid k w).
  { destruct k as [c|c|queryFn options]; cbn; [| |by left];
      (destruct (collections w !! c); [left; by eexists | right; by intros [x Hx]]). }
  destruct Hdec as [Hv|Hv].
  - destruct (prepared_backing k w Hv) as [col Hcol].
    rewrite (mount_spec k w col Hv Hcol). cbn. split.
    + destruct k as [c|c|queryFn options]; cbn; [right; left; by eexists ..|].
      right. right. by eexists.
    + exists []. split; [by intros cell Hin; apply elem_of_nil in Hin|].
      right. eexists _, _, _. cbn. split; [done|]. split; [done|]. cbn. lia.
  - rewrite (mount_dangling k w Hv). cbn. split; [by left|].
    exists [mkCell None []]. split.
    + intros cell Hin. by apply list_elem_of_singleton in Hin as ->.
    + by left.
Qed.

Lemma evaluate_unsafe_grows queryFn options w :
  grows w (exec (mount (makeQueryUnsafe queryFn options)) w).
Proof.
  unfold exec. destruct (mount_unsafe_spec queryFn options w) as [tr ->]. cbn. split.
  - right. right. by eexists.
  - eexists [mkCell _ []]. split.
    + intros cell Hin. by apply list_elem_of_singleton in Hin as ->.
    + right. eexists _, _, _. cbn. split; [done|]. split; [done|]. cbn. lia.
Qed.

Lemma evaluate_conditional_grows queryFn options w :
  grows w (exec (mount (makeQueryConditional queryFn options)) w).
Proof.
  unfold exec. destruct (straight (steps_of queryFn)) eqn:Hs.
  - destruct queryFn as [chain|touched marker].
    + destruct (mount_conditional_builds_spec chain options w Hs) as [tr ->]. cbn. split.
      * right. right. by eexists.
      * eexists [mkCell _ []]. split.
        -- intros cell Hin. by apply list_elem_of_singleton in Hin as ->.
        -- right. eexists _, _, _. cbn. split; [done|]. split; [done|]. cbn. lia.
    + rewrite mount_conditional_declines_spec by done. cbn. split; [by left|].
      eexists [mkCell _ []]. split.
      * intros cell Hin. by apply list_elem_of_singleton in Hin as ->.
      * by left.
  - destruct (mount_conditional_bent queryFn options w Hs) as (e & touched & ->).
    cbn. split; [by left|].
    eexists [mkCell _ []]. split.
    + intros cell Hin. by apply list_elem_of_singleton in Hin as ->.
    + by left.
Qed.

(** *** Subscriptions and finalizers stay in step *)

Lemma finalizers_of_lt i w : is_Some (finalizers_of i w) ↔ i < length (cells w).
Proof.
  unfold finalizers_of. rewrite <- lookup_lt_is_Some.
  destruct (cells w !! i); split; intros [x Hx]; by eauto.
Qed.

Lemma wf_ext w w' :
  subscriptions w' = subscriptions w →
  (∀ i, finalizers_of i w' = finalizers_of i w) →
  well_formed w → well_formed w'.
Proof.
  intros Hs Hf [Hsub Hcell]. split.
  - intros s sub. rewrite Hs, !Hf. apply Hsub.
  - intros i fs. rewrite Hf, Hs. apply Hcell.
Qed.

Lemma wf_subscribers_mounted w : well_formed w → subscribers_mounted w.
Proof.
  intros [Hsub _] sub Hin. apply list_elem_of_lookup in Hin as [s Hs].
  apply finalizers_of_lt. by apply (Hsub s sub Hs).
Qed.

Lemma wf_empty : well_formed empty_world.
Proof. split; intros ? ?; cbn; by rewrite ?lookup_nil. Qed.

Lemma wf_grows w w' : well_formed w → grows w w' → well_formed w'.
Proof.
  intros [Hsub Hcell] (_ & plain & Hplain & Hshape).
  assert (Hold : ∀ (more : list Cell) (i : nat), i < length (cells w) →
            cell_finalizers <$> (cells w ++ more) !! i = finalizers_of i w).
  { intros more i Hi. unfold finalizers_of. by rewrite lookup_app_l. }
  assert (Hin_plain : ∀ (more : list Cell) (i : nat) fs, (length (cells w) ≤ i)%nat →
            i < length (cells w) + length plain →
            cell_finalizers <$> (cells w ++ plain ++ more) !! i = Some fs → fs = []).
  { intros more i fs Hge Hlt Hfs. rewrite lookup_app_r, lookup_app_l in Hfs by lia.
    destruct (plain !! (i - length (cells w))) as [cell|] eqn:Hc; [|done].
    injection Hfs as <-. apply Hplain. by eapply list_elem_of_lookup_2. }
  destruct Hshape as [[Hcells Hsubs]|(v & c & cb & Hcells & Hsubs & Hcb)].
  - split.
    + intros s sub Hs. rewrite Hsubs in Hs.
      destruct (Hsub s sub Hs) as (Hsome & Hact & Hrel).
      pose proof (proj1 (finalizers_of_lt _ _) Hsome) as Hlt.
      unfold finalizers_of at 1 2. rewrite Hcells, !Hold by done. done.
    + intros i fs Hfs. unfold finalizers_of in Hfs. rewrite Hcells in Hfs.
      destruct (decide (i < length (cells w))) as [Hlt|Hge].
      * rewrite Hold in Hfs by done. rewrite Hsubs. by apply Hcell.
      * left. assert (Hi : i < length (cells w) + length plain).
        { assert (is_Some ((cells w ++ plain) !! i)) as Hi
            by (destruct ((cells w ++ plain) !! i); [by eexists|done]).
          apply lookup_lt_is_Some in Hi. by rewrite length_app in Hi. }
        apply (Hin_plain [] i fs); [lia|done|]. by rewrite app_nil_r.
  - split.
    + intros s sub Hs. rewrite Hsubs in Hs.
      apply lookup_app_Some in Hs as [Hs|[Hge Hs]].
      * destruct (Hsub s sub Hs) as (Hsome & Hact & Hrel).
        pose proof (proj1 (finalizers_of_lt _ _) Hsome) as Hlt.
        unfold finalizers_of at 1 2. rewrite Hcells, !Hold by done. done.
      * apply list_lookup_singleton_Some in Hs as [Hz <-].
        assert (s = length (subscriptions w)) as -> by lia. cbn.
        assert (Hnew : finalizers_of (cb_get cb) w'
                       = Some [Unsubscribe (length (subscriptions w))]).
        { unfold finalizers_of. rewrite Hcells, Hcb, app_assoc.
          rewrite lookup_app_r by (rewrite length_app; lia).
          by rewrite length_app, Nat.sub_diag. }
        rewrite Hnew. split; [by eexists|]. split; [done|]. discriminate.
    + intros i fs Hfs. unfold finalizers_of in Hfs. rewrite Hcells in Hfs.
      destruct (decide (i < length (cells w))) as [Hlt|Hge].
      * rewrite Hold in Hfs by done. destruct (Hcell i fs Hfs) as [->|Hone]; [by left|].
        right. destruct Hone as (s & sub & -> & Hs & Hact & Hget).
        exists s, sub. rewrite Hsubs. split; [done|]. split; [|done].
        by apply lookup_app_l_Some.
      * destruct (decide (i < length (cells w) + length plain)) as [Hlt'|Hge'].
        { left. by apply (Hin_plain [mkCell v [Unsubscribe (length (subscriptions w))]] i fs); [lia| |]. }
        rewrite app_assoc, lookup_app_r in Hfs by (rewrite length_app; lia).
        rewrite length_app in Hfs.
        destruct (i - (length (cells w) + length plain)) as [|m] eqn:Hm; [|done].
        injection Hfs as <-. right.
        exists (length (subscriptions w)), (mkSubscription c cb true 0).
        split; [done|]. rewrite Hsubs. split; [|split; [done|cbn; lia]].
        by rewrite lookup_app_r, Nat.sub_diag by lia.
Qed.

(** *** Teardown *)

Lemma finalizers_fold_cells (fs : list Finalizer) w :
  cells (foldl (fun w f => exec (run_finalizer f) w) w fs) = cells w
  ∧ collections (foldl (fun w f => exec (run_finalizer f) w) w fs) = collections w.
Proof.
  revert w. induction fs as [|[s] fs IH]; intros w; [done|]. cbn.
  destruct (IH (exec (unsubscribe s) w)) as (-> & ->).
  unfold exec, unsubscribe. by destruct (subscriptions w !! s).
Qed.

Lemma teardown_cells i w :
  cells (teardown i w) = alter clear_finalizers i (cells w)
  ∧ collections (teardown i w) = collections w.
Proof. unfold teardown. by destruct (finalizers_fold_cells
         (from_option cell_finalizers [] (cells w !! i))
         (with_cells (alter clear_finalizers i (cells w)) w)) as (-> & ->). Qed.

Lemma finalizers_of_teardown i j w :
  finalizers_of j (teardown i w)
    = if decide (i = j) then (fun _ => []) <$> finalizers_of i w else finalizers_of j w.
Proof.
  unfold finalizers_of. destruct (teardown_cells i w) as (-> & _).
  case_decide as Hij.
  - subst j. rewrite list_lookup_alter_eq. by destruct (cells w !! i).
  - by rewrite list_lookup_alter_ne.
Qed.

Lemma visible_teardown i cell w : visible cell (teardown i w) = visible cell w.
Proof.
  unfold visible. destruct (teardown_cells i w) as (-> & _).
  destruct (decide (i = cell)) as [->|Hne].
  - rewrite list_lookup_alter_eq. by destruct (cells w !! cell).
  - by rewrite list_lookup_alter_ne.
Qed.

Lemma teardown_idle i w :
  finalizers_of i w = None ∨ finalizers_of i w = Some [] →
  subscriptions (teardown i w) = subscriptions w.
Proof.
  unfold finalizers_of, teardown. intros Hf.
  destruct (cells w !! i) as [cell|]; cbn in *.
  - destruct Hf as [Hf|Hf]; [done|]. injection Hf as ->. done.
  - done.
Qed.

Lemma teardown_one i s sub w :
  finalizers_of i w = Some [Unsubscribe s] →
  subscriptions w !! s = Some sub →
  subscriptions (teardown i w) = <[s := release sub]> (subscriptions w).
Proof.
  unfold finalizers_of, teardown. intros Hf Hs.
  destruct (cells w !! i) as [cell|]; [|done]. cbn in *. injection Hf as ->.
  cbn. unfold exec, unsubscribe. cbn. by rewrite Hs.
Qed.

Lemma wf_teardown i w : well_formed w → well_formed (teardown i w).
Proof.
  intros [Hsub Hcell].
  destruct (finalizers_of i w) as [fs|] eqn:Hfi.
  2:{ apply (wf_ext w); [apply teardown_idle; by left| |done].
      intros j. rewrite finalizers_of_teardown. case_decide; [subst; by rewrite Hfi|done]. }
  destruct (Hcell i fs Hfi) as [->|(s & sub & -> & Hs & Hact & Hget)].
  { apply (wf_ext w); [apply teardown_idle; by right| |done].
    intros j. rewrite finalizers_of_teardown. case_decide; [subst; by rewrite Hfi|done]. }
  pose proof (teardown_one i s sub w Hfi Hs) as Hsubs.
  assert (Hslt : s < length (subscriptions w)) by by eapply lookup_lt_Some.
  split.
  - intros s' sub' Hs'. rewrite Hsubs in Hs'. rewrite !finalizers_of_teardown.
    destruct (decide (s = s')) as [<-|Hne].
    + rewrite list_lookup_insert_eq in Hs' by done. injection Hs' as <-. cbn.
      rewrite Hget, decide_True, Hfi by done. cbn.
      split; [by eexists|]. split; [discriminate|].
      intros _. by rewrite (proj1 (proj1 (proj2 (Hsub s sub Hs)) Hact)).
    + rewrite list_lookup_insert_ne in Hs' by done.
      destruct (Hsub s' sub' Hs') as (Hsome & Hact' & Hrel').
      case_decide as Hi.
      * rewrite Hfi. cbn. split; [by eexists|]. split; [|done].
        intros Ha. destruct (Hact' Ha) as (_ & Hf'). rewrite <- Hi, Hfi in Hf'.
        injection Hf' as ->. done.
      * done.
  - intros j fs Hfs. rewrite finalizers_of_teardown in Hfs. case_decide as Hi.
    + rewrite Hfi in Hfs. injection Hfs as <-. by left.
    + destruct (Hcell j fs Hfs) as [->|(s' & sub' & -> & Hs' & Hact' & Hget')]; [by left|].
      right. exists s', sub'. split; [done|]. rewrite Hsubs.
      rewrite list_lookup_insert_ne; [done|]. intros ->.
      rewrite Hs in Hs'. injection Hs' as <-. congruence.
Qed.

(** *** Reports *)

Lemma deliver_finalizers c sub i w :
  finalizers_of i (deliver c w sub) = finalizers_of i w.
Proof.
  unfold deliver. case_decide; [|done]. destruct (sub_active sub); [|done].
  rewrite run_callback_spec.
  destruct (collections w !! cb_collection (sub_callback sub)); [|done].
  unfold finalizers_of. cbn.
  destruct (decide (cb_get (sub_callback sub) = i)) as [->|Hne].
  - rewrite list_lookup_alter_eq. by destruct (cells w !! i).
  - by rewrite list_lookup_alter_ne.
Qed.

Lemma notify_finalizers c l i w :
  finalizers_of i (foldl (deliver c) w l) = finalizers_of i w.
Proof.
  revert w. induction l as [|sub l IH]; intros w; [done|].
  cbn. by rewrite IH, deliver_finalizers.
Qed.

Lemma wf_transition c s w : well_formed w → well_formed (transition c s w).
Proof.
  apply wf_ext; [apply transition_collection|].
  intros i. unfold transition, notify. by rewrite notify_finalizers.
Qed.

Lemma wf_perform a w : well_formed w → well_formed (perform w a).
Proof.
  intros Hw. destruct a as [k|queryFn options|queryFn options|c s|cell]; cbn.
  - eapply wf_grows; [done|apply evaluate_grows].
  - eapply wf_grows; [done|apply evaluate_unsafe_grows].
  - eapply wf_grows; [done|apply evaluate_conditional_grows].
  - by apply wf_transition.
  - by apply wf_teardown.
Qed.

Lemma wf_run script w : well_formed w → well_formed (run script w).
Proof.
  revert w. induction script as [|a script IH]; intros w Hw; [done|].
  cbn. apply IH. by apply wf_perform.
Qed.

(** *** A bridged cell among other atoms *)

Lemma shown_begin_sync b col : shown b (begin_sync col) = shown b col.
Proof.
  unfold begin_sync, shown. destruct (syncStarted col); [done|]. cbn.
  by destruct (status col).
Qed.

Lemma bridged_grows b c cell w w' :
  bridged b c cell w → grows w w' → bridged b c cell w'.
Proof.
  intros ((col & Hc & Hvis) & Hown & (sub0 & Hin0 & Hcb0 & Hact0 & Hsc0))
         (Hcols & plain & _ & Hshape).
  pose proof (visible_lt _ _ _ Hvis) as Hlt.
  assert (Hcells : ∃ more, cells w' = cells w ++ more).
  { destruct Hshape as [[-> _]|(v & c' & cb & -> & _)]; by eexists. }
  destruct Hcells as [more Hcells].
  assert (Hvis' : ∀ col', visible cell w' = Some (CellResult (shown b col'))
                          ↔ visible cell w = Some (CellResult (shown b col'))).
  { intros col'. unfold visible. by rewrite Hcells, lookup_app_l. }
  split; [|split].
  - unfold tracks. destruct Hcols as [Hsame|[[c' Hsync]|[newcol Happ]]].
    + exists col. rewrite Hsame. split; [done|]. by apply Hvis'.
    + rewrite Hsync. destruct (decide (c' = c)) as [->|Hne].
      * exists (begin_sync col). rewrite list_lookup_alter_eq, Hc. split; [done|].
        rewrite shown_begin_sync. by apply Hvis'.
      * exists col. rewrite list_lookup_alter_ne by done. split; [done|]. by apply Hvis'.
    + exists col. rewrite Happ. split; [by apply lookup_app_l_Some|]. by apply Hvis'.
  - destruct Hshape as [[_ ->]|(v & c' & cb & _ & -> & Hcb)]; [done|].
    intros sub Hin Hget. apply elem_of_app in Hin as [Hin|Hin]; [by apply Hown|].
    apply list_elem_of_singleton in Hin as ->. cbn in Hget. lia.
  - exists sub0. split; [|done].
    destruct Hshape as [[_ ->]|(v & c' & cb & _ & -> & Hcb)]; [done|].
    apply elem_of_app. by left.
Qed.

Lemma elem_of_insert_inv {A} (l : list A) i x y :
  y ∈ <[i := x]> l → y = x ∨ y ∈ l.
Proof.
  intros Hin. apply list_elem_of_lookup in Hin as [j Hj].
  destruct (decide (i = j)) as [<-|Hne].
  - destruct (decide (i < length l)) as [Hlt|Hge].
    + rewrite list_lookup_insert_eq in Hj by done. left. congruence.
    + rewrite list_insert_ge in Hj by lia. right. by eapply list_elem_of_lookup_2.
  - rewrite list_lookup_insert_ne in Hj by done. right. by eapply list_elem_of_lookup_2.
Qed.

Lemma bridged_teardown b c cell i w :
  well_formed w → i ≠ cell → bridged b c cell w → bridged b c cell (teardown i w).
Proof.
  intros [Hsub Hcell] Hne ((col & Hc & Hvis) & Hown & (sub0 & Hin0 & Hcb0 & Hact0 & Hsc0)).
  assert (Htracks : tracks b c cell (teardown i w)).
  { exists col. destruct (teardown_cells i w) as (_ & ->).
    split; [done|]. by rewrite visible_teardown. }
  split; [done|].
  destruct (finalizers_of i w) as [fs|] eqn:Hfi.
  2:{ rewrite teardown_idle by by left. split; [done|]. by exists sub0. }
  destruct (Hcell i fs Hfi) as [->|(s & sub & -> & Hs & Hact & Hget)].
  { rewrite teardown_idle by by right. split; [done|]. by exists sub0. }
  rewrite (teardown_one i s sub w Hfi Hs). split.
  - intros sub' Hin Hget'. apply elem_of_insert_inv in Hin as [->|Hin].
    + cbn in Hget'. congruence.
    + by apply Hown.
  - exists sub0. split; [|done].
    apply list_elem_of_lookup in Hin0 as [s0 Hs0].
    apply list_elem_of_lookup. exists s0. rewrite list_lookup_insert_ne; [done|].
    intros ->. rewrite Hs in Hs0. injection Hs0 as ->. rewrite Hcb0 in Hget. cbn in Hget.
    congruence.
Qed.

Lemma followed_perform b c cell a w :
  a ≠ Finalize cell →
  well_formed w ∧ bridged b c cell w →
  well_formed (perform w a) ∧ bridged b c cell (perform w a).
Proof.
  intros Hne [Hw Hb]. split; [by apply wf_perform|].
  destruct a as [k|queryFn options|queryFn options|c' s|i]; cbn.
  - eapply bridged_grows; [done|apply evaluate_grows].
  - eapply bridged_grows; [done|apply evaluate_unsafe_grows].
  - eapply bridged_grows; [done|apply evaluate_conditional_grows].
  - by apply transition_bridged.
  - apply bridged_teardown; [done| |done]. congruence.
Qed.

Lemma followed_run b c cell script w :
  spares cell script →
  well_formed w ∧ bridged b c cell w →
  well_formed (run script w) ∧ bridged b c cell (run script w).
Proof.
  revert w. induction script as [|a script IH]; intros w Hsp Hinv; [done|].
  cbn. apply IH.
  - intros Hin. apply Hsp. by right.
  - apply followed_perform; [|done]. intros ->. apply Hsp. by left.
Qed.

Lemma mounted_then_run k script w :
  well_formed w → handle_valid k w → spares (length (cells w)) script →
  well_formed (run script (exec (mount (atom_of k)) w))
  ∧ bridged (bridge_of k) (backing k w) (length (cells w))
      (run script (exec (mount (atom_of k)) w)).
Proof.
  intros Hw Hv Hsp. apply followed_run; [done|]. split.
  - eapply wf_grows; [done|apply evaluate_grows].
  - apply mount_bridged; [done|]. by apply wf_subscribers_mounted.
Qed.

(** *** A cell nobody writes to *)

Lemma notify_untouched c cell l w :
  (∀ sub, sub ∈ l → sub_active sub = true → cb_get (sub_callback sub) ≠ cell) →
  visible cell (foldl (deliver c) w l) = visible cell w.
Proof.
  revert w. induction l as [|sub l IH]; intros w Hl; [done|].
  cbn. rewrite IH by (intros sub' Hin; apply Hl; by right).
  unfold deliver. case_decide; [|done].
  destruct (sub_active sub) eqn:Hact; [|done].
  rewrite run_callback_spec.
  destruct (collections w !! cb_collection (sub_callback sub)); [|done].
  apply visible_alter_ne. apply Hl; [by left|done].
Qed.

Lemma transitions_untouched cell steps w :
  (∀ sub, sub ∈ subscriptions w → sub_active sub = true →
          cb_get (sub_callback sub) ≠ cell) →
  visible cell (transitions steps w) = visible cell w.
Proof.
  revert w. induction steps as [|[c s] steps IH]; intros w Hq; [done|].
  change (transitions ((c, s) :: steps) w) with (transitions steps (transition c s w)).
  rewrite IH.
  - unfold transition, notify. cbn. by rewrite notify_untouched.
  - by rewrite (proj2 (transition_collection c s w)).
Qed.

Lemma finalized_unwritten cell w :
  well_formed w →
  finalizers_of cell w = None ∨ finalizers_of cell w = Some [] →
  ∀ sub, sub ∈ subscriptions w → sub_active sub = true →
         cb_get (sub_callback sub) ≠ cell.
Proof.
  intros [Hsub _] Hf sub Hin Hact Hget.
  apply list_elem_of_lookup in Hin as [s Hs].
  destruct (Hsub s sub Hs) as (_ & Ha & _). destruct (Ha Hact) as (_ & Hfs).
  rewrite Hget in Hfs. destruct Hf as [Hf|Hf]; rewrite Hf in Hfs; done.
Qed.

Lemma teardown_list_finalizers (l : list nat) w i :
  finalizers_of i (foldl (fun w j => teardown j w) w l)
    = if decide (i ∈ l) then (fun _ => []) <$> finalizers_of i w else finalizers_of i w.
Proof.
  revert w. induction l as [|j l IH]; intros w.
  - cbn. by rewrite decide_False by apply not_elem_of_nil.
  - cbn. rewrite IH, finalizers_of_teardown.
    destruct (decide (j = i)) as [->|Hne].
    + rewrite (decide_True (P := i ∈ i :: l)) by by left.
      case_decide; [|done]. by destruct (finalizers_of i w).
    + destruct (decide (i ∈ l)) as [Hin|Hnin].
      * by rewrite (decide_True (P := i ∈ j :: l)) by by right.
      * rewrite (decide_False (P := i ∈ j :: l)); [done|].
        intros Hin. apply elem_of_cons in Hin as [->|Hin]; done.
Qed.

Lemma wf_teardown_list (l : list nat) w :
  well_formed w → well_formed (foldl (fun w j => teardown j w) w l).
Proof.
  revert w. induction l as [|j l IH]; intros w Hw; [done|].
  cbn. apply IH. by apply wf_teardown.
Qed.

Lemma visible_grows cell w w' :
  cell < length (cells w) → grows w w' → visible cell w' = visible cell w.
Proof.
  intros Hlt (_ & plain & _ & Hshape). unfold visible.
  destruct Hshape as [[-> _]|(v & c & cb & -> & _)]; by rewrite lookup_app_l.
Qed.

Lemma finalizers_of_grows cell w w' :
  cell < length (cells w) → grows w w' → finalizers_of cell w' = finalizers_of cell w.
Proof.
  intros Hlt (_ & plain & _ & Hshape). unfold finalizers_of.
  destruct Hshape as [[-> _]|(v & c & cb & -> & _)]; by rewrite lookup_app_l.
Qed.

Lemma frozen_perform cell a w :
  well_formed w ∧ finalizers_of cell w = Some [] →
  (well_formed (perform w a) ∧ finalizers_of cell (perform w a) = Some [])
  ∧ visible cell (perform w a) = visible cell w.
Proof.
  intros [Hw Hf].
  assert (Hlt : cell < length (cells w)) by (apply finalizers_of_lt; by rewrite Hf).
  split; [split; [by apply wf_perform|]|].
  - destruct a as [k|queryFn options|queryFn options|c s|i]; cbn.
    + by rewrite (finalizers_of_grows cell w _ Hlt (evaluate_grows k w)).
    + by rewrite (finalizers_of_grows cell w _ Hlt (evaluate_unsafe_grows _ _ w)).
    + by rewrite (finalizers_of_grows cell w _ Hlt (evaluate_conditional_grows _ _ w)).
    + unfold transition, notify. by rewrite notify_finalizers.
    + rewrite finalizers_of_teardown. case_decide; [subst; by rewrite Hf|done].
  - destruct a as [k|queryFn options|queryFn options|c s|i]; cbn.
    + apply (visible_grows cell w _ Hlt (evaluate_grows k w)).
    + apply (visible_grows cell w _ Hlt (evaluate_unsafe_grows _ _ w)).
    + apply (visible_grows cell w _ Hlt (evaluate_conditional_grows _ _ w)).
    + unfold transition, notify. cbn. rewrite notify_untouched; [done|].
      cbn. apply finalized_unwritten; [done|by right].
    + apply visible_teardown.
Qed.

(** ** Further properties of the code *)

(** X1. Subscriptions and finalizers stay in step.  In every world reached
    from the empty one by evaluations of the five constructors, change
    reports and teardowns, in any order, a subscription is either live, has
    never been released and is the one finalizer of the cell its closure
    writes to, or it has been released exactly once. *)
Theorem subscriptions_and_finalizers_agree (script : list Action)
    (s : SubscriptionRef) (sub : Subscription) :
  let w := run script empty_world in
  subscriptions w !! s = Some sub →
  sub_released sub = (if sub_active sub then 0 else 1)
  ∧ (sub_active sub = true →
     finalizers_of (cb_get (sub_callback sub)) w = Some [Unsubscribe s])
  ∧ cb_get (sub_callback sub) < length (cells w).
Proof.
  intros w Hs.
  destruct (wf_run script empty_world wf_empty) as [Hsub _].
  destruct (Hsub s sub Hs) as (Hsome & Hact & Hrel).
  split; [|split].
  - destruct (sub_active sub); [by apply Hact|by apply Hrel].
  - intros Ha. by apply Hact.
  - by apply finalizers_of_lt.
Qed.

(** X2. No subscription leaks.  After any such history, tearing down every
    cell leaves no subscription live, and each has been released exactly
    once. *)
Theorem teardown_all_releases_everything (script : list Action) (sub : Subscription) :
  sub ∈ subscriptions (teardown_all (run script empty_world)) →
  sub_active sub = false ∧ sub_released sub = 1.
Proof.
  set (w := run script empty_world). intros Hin.
  pose proof (wf_run script empty_world wf_empty) as Hw. fold w in Hw.
  pose proof (wf_teardown_list (seq 0 (length (cells w))) w Hw) as [Hsub _].
  apply list_elem_of_lookup in Hin as [s Hs].
  destruct (Hsub s sub Hs) as (Hsome & Hact & Hrel).
  destruct (sub_active sub) eqn:Ha; [|split; [done|by apply Hrel]].
  destruct (Hact eq_refl) as (_ & Hfs). exfalso.
  unfold teardown_all in Hs. rewrite teardown_list_finalizers in Hfs, Hsome.
  case_decide as Hdec.
  - by destruct (finalizers_of (cb_get (sub_callback sub)) w).
  - apply Hdec. apply elem_of_seq. apply finalizers_of_lt in Hsome. lia.
Qed.

(** X3. A finalized cell is frozen.  Once a mounted cell has been torn
    down, nothing that happens later (reports of any collection,
    evaluations of other atoms, further teardowns) changes the value it
    holds: its closure is no longer called. *)
Theorem finalized_cell_is_frozen (w : World) (cell : CellRef) (script : list Action) :
  well_formed w →
  cell < length (cells w) →
  visible cell (run script (teardown cell w)) = visible cell w.
Proof.
  intros Hw Hlt. rewrite <- (visible_teardown cell cell w).
  assert (Hinv : well_formed (teardown cell w)
                 ∧ finalizers_of cell (teardown cell w) = Some []).
  { split; [by apply wf_teardown|]. rewrite finalizers_of_teardown, decide_True by done.
    apply finalizers_of_lt in Hlt as [fs ->]. done. }
  revert Hinv. generalize (teardown cell w). clear.
  induction script as [|a script IH]; intros w Hinv; [done|].
  cbn. destruct (frozen_perform cell a w Hinv) as (Hinv' & <-). by apply IH.
Qed.

(** X4. A mounted cell keeps following its collection among other atoms.
    After a bridging constructor is evaluated, any later history that does
    not tear this cell down (other atoms being evaluated, on the same
    collection or on others, other cells being torn down, any collection
    reporting changes) leaves the cell showing the status-table row of the
    present state of its collection. *)
Theorem mounted_cell_follows_among_others (k : Constructor) (w : World)
    (script : list Action) :
  well_formed w →
  handle_valid k w →
  spares (length (cells w)) script →
  let w' := run script (exec (mount (atom_of k)) w) in
  ∃ col v,
    collections w' !! backing k w = Some col
    ∧ visible (length (cells w)) w' = Some (CellResult v)
    ∧ table_row (status col)
        (projection_of (bridge_of k) (config col) (coll_entries col)) v.
Proof.
  intros Hw Hv Hsp w'.
  destruct (mounted_then_run k script w Hw Hv Hsp) as (_ & (col & Hc & Hvis) & _).
  exists col, (shown (bridge_of k) col). split; [done|]. split; [done|].
  apply shown_in_table.
Qed.

(** X5. Another collection's report is none of the cell's business.  In the
    situation of X4, a change reported by a collection other than the cell's
    own leaves the cell's value exactly as it was. *)
Theorem foreign_report_leaves_cell (k : Constructor) (w : World)
    (script : list Action) (c : CollectionRef) (s : Snapshot) :
  well_formed w →
  handle_valid k w →
  spares (length (cells w)) script →
  c ≠ backing k w →
  let w' := run script (exec (mount (atom_of k)) w) in
  visible (length (cells w)) (transition c s w') = visible (length (cells w)) w'.
Proof.
  intros Hw Hv Hsp Hne w'.
  destruct (mounted_then_run k script w Hw Hv Hsp) as (_ & Hb).
  pose proof (transition_bridged _ _ _ c s _ Hb) as ((col' & Hc' & Hvis') & _).
  destruct Hb as ((col & Hc & Hvis) & _). fold w' in Hc, Hvis, Hc', Hvis'.
  rewrite (proj1 (transition_collection c s w')), list_lookup_alter_ne in Hc' by done.
  rewrite Hc in Hc'. injection Hc' as <-. by rewrite Hvis, Hvis'.
Qed.

Lemma shown_single_head col :
  shown SingleBridge col = head_of (shown ArrayBridge col).
Proof.
  unfold shown, head_of. destruct (status col); try done. cbn.
  unfold all_values, first_or_undefined. by destruct (coll_entries col) as [|[k v] rest].
Qed.

(** X6. A single atom and an array atom over the same collection agree at
    all times.  Evaluate [makeCollectionAtom] and then
    [makeSingleCollectionAtom] on one collection; after any later history
    that tears neither cell down, the single cell holds the first element of
    what the array cell holds ([undefined] when the array is empty), and the
    very same [Initial] or [Failure] when the array cell holds one. *)
Theorem single_and_array_agree (c : CollectionRef) (w : World) (script : list Action) :
  well_formed w →
  is_Some (collections w !! c) →
  spares (length (cells w)) script →
  spares (S (length (cells w))) script →
  let w' := run script (exec (mount (makeSingleCollectionAtom c))
                          (exec (mount (makeCollectionAtom c)) w)) in
  ∃ whole,
    visible (length (cells w)) w' = Some (CellResult whole)
    ∧ visible (S (length (cells w))) w' = Some (CellResult (head_of whole)).
Proof.
  intros Hw Hc Hsp1 Hsp2 w'.
  set (w1 := exec (mount (atom_of (ByCollection c))) w).
  assert (Hsp : spares (length (cells w)) (Evaluate (BySingleCollection c) :: script)).
  { intros Hin. apply elem_of_cons in Hin as [Hin|Hin]; [done|by apply Hsp1]. }
  destruct (mounted_then_run (ByCollection c) _ w Hw Hc Hsp) as (_ & (col & Hcol & Hvis) & _).
  destruct (prepared_backing (ByCollection c) w Hc) as [col0 Hcol0].
  assert (Hw1 : well_formed w1) by (eapply wf_grows; [done|apply evaluate_grows]).
  assert (Hlen : length (cells w1) = S (length (cells w))).
  { unfold w1, exec. rewrite (mount_spec (ByCollection c) w col0 Hc Hcol0). cbn.
    rewrite length_app. cbn. lia. }
  assert (Hc1 : handle_valid (BySingleCollection c) w1).
  { unfold w1, exec. rewrite (mount_spec (ByCollection c) w col0 Hc Hcol0). cbn. by eexists. }
  rewrite <- Hlen in Hsp2.
  destruct (mounted_then_run (BySingleCollection c) script w1 Hw1 Hc1 Hsp2)
    as (_ & (col' & Hcol' & Hvis') & _).
  cbn [backing bridge_of] in *. rewrite Hlen in Hvis'.
  change (run (Evaluate (BySingleCollection c) :: script)
            (exec (mount (atom_of (ByCollection c))) w)) with w' in Hcol, Hvis.
  change (run script (exec (mount (atom_of (BySingleCollection c))) w1)) with w'
    in Hcol', Hvis'.
  rewrite Hcol in Hcol'. injection Hcol' as <-.
  exists (shown ArrayBridge col). split; [done|]. by rewrite <- shown_single_head.
Qed.

(** X7. What the query atoms take from their options.  [makeQuery] creates
    its live query with [startSync] as given, [true] when it is absent, and
    with [gcTime] as given, [0] when it is absent: these are the arguments
    of the [createLiveQueryCollection] call, the first call of the
    evaluation.  [suspendOnWaiting] is not read: option records that differ
    only there give the same atom, and passing no options is passing
    [{ gcTime: 0, startSync: true }], for [makeQuery], [makeQueryUnsafe] and
    [makeQueryConditional] alike. *)
Theorem query_options_defaults (queryFn : QueryFn) (get : CellRef) (w : World) :
  (∀ options, ∃ rest,
      trace (exec (makeQuery queryFn options get) w)
      = trace w
          ++ EvCreateLiveQuery (length (collections w)) queryFn
               match options with
               | Some {| opt_startSync := Some startSync |} => startSync
               | _ => true
               end
               match options with
               | Some {| opt_gcTime := Some gcTime |} => gcTime
               | _ => 0%Z
               end
          :: rest)
  ∧ (∀ gcTime startSync suspend1 suspend2,
        let o1 := Some (mkQueryOptions gcTime startSync suspend1) in
        let o2 := Some (mkQueryOptions gcTime startSync suspend2) in
        makeQuery queryFn o1 = makeQuery queryFn o2
        ∧ makeQueryUnsafe queryFn o1 = makeQueryUnsafe queryFn o2
        ∧ ∀ conditional,
            makeQueryConditional conditional o1 = makeQueryConditional conditional o2)
  ∧ (let explicit := Some (mkQueryOptions (Some 0%Z) (Some true) None) in
     makeQuery queryFn None = makeQuery queryFn explicit
     ∧ makeQueryUnsafe queryFn None = makeQueryUnsafe queryFn explicit
     ∧ ∀ conditional,
         makeQueryConditional conditional None = makeQueryConditional conditional explicit).
Proof.
  split; [|by split].
  intros options. unfold exec.
  pose proof (atom_of_spec (ByQuery queryFn options) get w _ I
                (created_backing queryFn options w)) as Hspec.
  cbn [atom_of] in Hspec. rewrite Hspec.
  cbn. eexists. f_equal. f_equal. by destruct options as [[[g|] [b|] sw]|].
Qed.

(** X8. What [undefined] from [makeQueryUnsafe] means.  The evaluation
    returns [undefined] exactly when the collection it has just created is
    not ready, or is ready with [singleResult === true] and no entry: the
    value does not tell "still loading" or "failed" from "loaded, nothing
    found". *)
Theorem unsafe_undefined_iff (queryFn : QueryFn) (options : option QueryOptions)
    (get : CellRef) (w : World) :
  ∃ p w' col,
    makeQueryUnsafe queryFn options get w = (Return p, w')
    ∧ collections w' !! length (collections w) = Some col
    ∧ (p = PUndefined ↔
       status col ≠ Ready
       ∨ (isSingleResult_of (config col) = true ∧ coll_entries col = [])).
Proof.
  pose proof (mount_spec (ByQuery queryFn options) w _ I
                (created_backing queryFn options w)) as Hm.
  cbn [atom_of] in Hm.
  eexists _, _, (created queryFn (startSync_or_default options)).
  unfold makeQueryUnsafe, get_atom. rewrite !bind_run, Hm. cbn.
  split; [done|]. split; [cbn; by rewrite lookup_app_r, Nat.sub_diag by lia|].
  generalize (created queryFn (startSync_or_default options)). intros col.
  unfold shown. destruct (status col) eqn:Hst; cbn;
    try (split; [intros _; left; congruence|done]).
  unfold single_or_all, isSingleResult_of.
  destruct (config col) as [[[| |[|]| |]]|]; cbn;
    try (split; [done|intros [Hne|[Hne _]]; done]).
  destruct (coll_entries col) as [|[k v] rest]; cbn.
  - split; [intros _; by right|done].
  - split; [done|intros [Hne|[_ Hne]]; done].
Qed.



Lemma deliver_trace c sub w :
  ∃ evs, trace (deliver c w sub) = trace w ++ evs
         ∧ Forall (fun e => is_observation e = true) evs.
Proof.
  unfold deliver.
  assert (Hnil : ∃ evs, trace w = trace w ++ evs
                        ∧ Forall (fun e => is_observation e = true) evs).
  { exists []. by rewrite app_nil_r. }
  case_decide; [|done]. destruct (sub_active sub); [|done].
  rewrite run_callback_spec.
  destruct (collections w !! cb_collection (sub_callback sub)) as [col|]; [|done].
  eexists. split; [done|]. cbn. unfold sample_events.
  destruct (status col), (cb_bridge (sub_callback sub)); repeat constructor.
Qed.

Lemma notify_trace c l w :
  ∃ evs, trace (foldl (deliver c) w l) = trace w ++ evs
         ∧ Forall (fun e => is_observation e = true) evs.
Proof.
  revert w. induction l as [|sub l IH]; intros w.
  - exists []. by rewrite app_nil_r.
  - cbn. destruct (IH (deliver c w sub)) as (evs2 & -> & H2).
    destruct (deliver_trace c sub w) as (evs1 & -> & H1).
    exists (evs1 ++ evs2). split; [by rewrite app_assoc|]. by apply Forall_app.
Qed.

Lemma notify_untouched_by c cell l w :
  (∀ sub, sub ∈ l → sub_active sub = true → sub_collection sub = c →
          cb_get (sub_callback sub) ≠ cell) →
  visible cell (foldl (deliver c) w l) = visible cell w.
Proof.
  revert w. induction l as [|sub l IH]; intros w Hl; [done|].
  cbn. rewrite IH by (intros sub' Hin; apply Hl; by right).
  unfold deliver. case_decide as Hc; [|done].
  destruct (sub_active sub) eqn:Hact; [|done].
  rewrite run_callback_spec.
  destruct (collections w !! cb_collection (sub_callback sub)); [|done].
  apply visible_alter_ne. apply Hl; [by left|done|done].
Qed.

(** X10. A notification only reads and pushes.  When a collection reports a
    change, the closures registered by this package leave every
    subscription and every finalizer as it was, create no cell, change no
    collection (the collection itself has taken its new snapshot), and call
    nothing but [status], [config], [entries()] and [setSelf]; and only
    cells with a live subscription to that collection can change value. *)
Theorem report_only_reads_and_pushes (c : CollectionRef) (s : Snapshot) (w : World) :
  subscriptions (transition c s w) = subscriptions w
  ∧ collections (transition c s w) = alter (install s) c (collections w)
  ∧ (∀ i, finalizers_of i (transition c s w) = finalizers_of i w)
  ∧ length (cells (transition c s w)) = length (cells w)
  ∧ (∃ evs, trace (transition c s w) = trace w ++ evs
            ∧ Forall (fun e => is_observation e = true) evs)
  ∧ ∀ cell,
      (∀ sub, sub ∈ subscriptions w → sub_active sub = true → sub_collection sub = c →
              cb_get (sub_callback sub) ≠ cell) →
      visible cell (transition c s w) = visible cell w.
Proof.
  destruct (transition_collection c s w) as (Hc & Hs).
  split; [done|]. split; [done|]. split; [|split; [|split]].
  - intros i. unfold transition, notify. by rewrite notify_finalizers.
  - unfold transition, notify.
    by rewrite (proj2 (proj2 (notify_frame c _ _))).
  - unfold transition, notify.
    destruct (notify_trace c
                (subscriptions (with_collections (alter (install s) c (collections w)) w))
                (with_collections (alter (install s) c (collections w)) w))
      as (evs & Hevs & Hall).
    exists evs. split; [exact Hevs|done].
  - intros cell Hcell. unfold transition, notify. cbn.
    by rewrite notify_untouched_by.
Qed.

(** X11. An evaluation only adds.  Evaluating an atom of any of the five
    constructors leaves every existing cell (value and finalizers) and
    every existing subscription as it was, appends at most one
    subscription, and leaves every existing collection as it was, except
    that [startSyncImmediate] may have started its sync. *)
Theorem evaluation_only_adds (a : Action) (w : World) :
  is_evaluation a = true →
  (∃ more, cells (perform w a) = cells w ++ more)
  ∧ (∃ more, subscriptions (perform w a) = subscriptions w ++ more
             ∧ (length more ≤ 1)%nat)
  ∧ ∀ c col, collections w !! c = Some col →
             collections (perform w a) !! c = Some col
             ∨ collections (perform w a) !! c = Some (begin_sync col).
Proof.
  intros Ha.
  assert (Hg : grows w (perform w a)).
  { destruct a as [k|queryFn options|queryFn options|c s|cell]; cbn; [| | |done|done].
    - apply evaluate_grows.
    - apply evaluate_unsafe_grows.
    - apply evaluate_conditional_grows. }
  destruct Hg as (Hcols & plain & _ & Hshape). split; [|split].
  - destruct Hshape as [[-> _]|(v & c & cb & -> & _)]; by eexists.
  - destruct Hshape as [[_ ->]|(v & c & cb & _ & -> & _)].
    + exists []. rewrite app_nil_r. split; [done|cbn; lia].
    + eexists. split; [done|cbn; lia].
  - intros c col Hc. destruct Hcols as [->|[[c' ->]|[newcol ->]]].
    + by left.
    + destruct (decide (c' = c)) as [->|Hne].
      * right. by rewrite list_lookup_alter_eq, Hc.
      * left. by rewrite list_lookup_alter_ne.
    + left. by apply lookup_app_l_Some.
Qed.

End Model.

(** ** Concrete instances

    Keys are numbers and entities strings; the demo engine answers every
    query with two ready rows and a single-result configuration. *)

Definition demo_engine : QueryFn → @Snapshot nat string :=
  fun _ => mkSnapshot Ready [(1, "Task 1"); (2, "Task 2")] (Some (mkConfig (JsBool true))).

(** A world with one caller-owned collection, still idle, and one mounted
    cell. *)
Definition demo_world : @World nat string :=
  mkWorld [mkCollection Idle [] None false] [] [mkCell None []] [].


(** [(q) => q.from({ todos }).where(...)] *)
Definition demo_chain : QueryFn :=
  [mkCall "from" ["todos"]; mkCall "where" ["completed = false"]].

Definition demo_failed : @Snapshot nat string := mkSnapshot StatusError [] None.

Definition demo_ready : @Snapshot nat string :=
  mkSnapshot Ready [(7, "Task 7"); (8, "Task 8")] (Some (mkConfig (JsBool true))).

Lemma demo_subscribers_mounted : subscribers_mounted demo_world.
Proof. intros sub Hsub. vm_compute in Hsub. inversion Hsub. Defined.

Lemma demo_handle_valid : handle_valid (ByCollection 0) demo_world.
Proof. vm_compute. eauto. Defined.

Lemma status_table_applied_witness :
  handle_valid (ByCollection 0) demo_world
  ∧ ∃ r w', atom_of demo_engine (ByCollection 0) 0 demo_world = (Return r, w')
            ∧ last (subscriptions w')
              = Some (mkSubscription 0 (mkCallback ArrayBridge 0 0) true 0).
Proof.
  split; [exact demo_handle_valid|].
  destruct (status_table_applied demo_engine (ByCollection 0) 0 demo_world demo_handle_valid)
    as (r & w' & _ & Heval & _ & _ & Hlast & _).
  by exists r, w'.
Defined.

Lemma subscribed_before_sampling_witness :
  handle_valid (ByQuery demo_chain None) demo_world
  ∧ 0 < length (cells demo_world)
  ∧ ∃ s w1 v w3,
      subscribe_phase demo_engine (ByQuery demo_chain None) 0 demo_world
        = (Return (1, s), w1)
      ∧ sample_phase (ByQuery demo_chain None) 0 (1, s) (transition 1 demo_failed w1)
        = (Return v, w3)
      ∧ visible 0 (transition 1 demo_failed w1) = Some (CellResult v).
Proof.
  assert (Hv : handle_valid (ByQuery demo_chain None) demo_world) by exact I.
  assert (Hget : 0 < length (cells demo_world)) by (vm_compute; lia).
  split; [exact Hv|]. split; [exact Hget|].
  destruct (subscribed_before_sampling demo_engine (ByQuery demo_chain None) 0 demo_world
              Hv Hget) as (_ & _ & Hrace).
  destruct (Hrace demo_failed) as (s & w1 & Hsub & v & w3 & Hsample & Hvis & _).
  by exists s, w1, v, w3.
Defined.

Lemma visible_value_follows_status_witness :
  handle_valid (ByCollection 0) demo_world
  ∧ subscribers_mounted demo_world
  ∧ ∃ v,
      visible 1 (transition 0 demo_failed
                   (transitions [(0, demo_ready)]
                      (exec (mount (atom_of demo_engine (ByCollection 0))) demo_world)))
        = Some (CellResult v)
      ∧ ∀ p, v ≠ Success p.
Proof.
  split; [exact demo_handle_valid|]. split; [exact demo_subscribers_mounted|].
  destruct (visible_value_follows_status demo_engine (ByCollection 0) demo_world
              [(0, demo_ready)] demo_failed demo_handle_valid demo_subscribers_mounted)
    as (r & w1 & Hmount & _ & v & Hvis & _ & Hnot).
  exists v. unfold exec. rewrite Hmount. split; [exact Hvis|].
  apply Hnot. by left.
Defined.

Lemma single_result_projection_witness :
  subscribers_mounted demo_world
  ∧ visible 1 (transition 1 demo_ready
                 (transitions [(1, demo_failed)]
                    (exec (mount (makeQuery demo_engine demo_chain None)) demo_world)))
    = Some (CellResult (Success (PEntity "Task 7"))).
Proof.
  split; [exact demo_subscribers_mounted|].
  destruct (single_result_projection demo_engine demo_chain None demo_world
              [(1, demo_failed)] demo_ready demo_subscribers_mounted)
    as (r & w1 & col & Hmount & _ & _ & Hnotified & _).
  unfold exec. rewrite Hmount. exact (Hnotified eq_refl).
Defined.

Lemma one_subscription_one_release_witness :
  handle_valid (ByCollection 0) demo_world
  ∧ ∃ r w1,
      mount (atom_of demo_engine (ByCollection 0)) demo_world = (Return (1, r), w1)
      ∧ subscriptions (teardown 1 w1)
        = [mkSubscription 0 (mkCallback ArrayBridge 0 1) false 1]
      ∧ subscriptions (teardown 1 (teardown 1 w1)) = subscriptions (teardown 1 w1).
Proof.
  split; [exact demo_handle_valid|].
  destruct (one_subscription_one_release demo_engine (ByCollection 0) demo_world
              demo_handle_valid) as (r & w1 & Hmount & _ & _ & Hdown & _ & Hagain & _).
  by exists r, w1.
Defined.


Lemma disabled_query_is_absent_witness :
  (∃ query fl w0,
      invoke (Declines [mkCall "from" ["todos"]] ReturnsNull) ProxyBuilder false demo_world
        = (Return (query, fl), w0)
      ∧ is_nullish query = true)
  ∧ ∃ w', makeQueryConditional demo_engine (Declines [mkCall "from" ["todos"]] ReturnsNull)
            None 0 demo_world = (Return None, w')
          ∧ collections w' = collections demo_world
          ∧ subscriptions w' = subscriptions demo_world.
Proof.
  assert (Hprobe : ∃ query fl w0,
             invoke (Declines [mkCall "from" ["todos"]] ReturnsNull) ProxyBuilder false
               demo_world = (Return (query, fl), w0)
             ∧ is_nullish query = true).
  { eexists _, _, _. split; reflexivity. }
  split; [exact Hprobe|].
  destruct (disabled_query_is_absent demo_engine _ None 0 demo_world Hprobe)
    as (w' & Heval & Hcs & Hss & _).
  by exists w'.
Defined.

(** ** Concrete instances for the further properties *)

(** A short history: a query atom is evaluated, its collection fails, the
    cell is torn down. *)
Definition demo_history : list (@Action nat string) :=
  [Evaluate (ByQuery demo_chain None); Report 0 demo_failed; Finalize 0].

(** Evaluations of other atoms and a teardown of another cell, none of
    which tears down cell 1 or cell 2. *)
Definition demo_others : list (@Action nat string) :=
  [EvaluateUnsafe demo_chain None; Report 0 demo_ready;
   EvaluateConditional (Declines [] ReturnsNull) None; Finalize 4; Report 0 demo_failed].

(** [demo_world] after an array atom has been mounted on its collection
    (as cell 1) and the collection has reported two ready rows. *)
Definition demo_live : @World nat string :=
  run demo_engine [Evaluate (ByCollection 0); Report 0 demo_ready] demo_world.

(** What happens after cell 1 is gone: its collection fails, another atom
    is evaluated, the collection recovers and fails again. *)
Definition demo_aftermath : list (@Action nat string) :=
  [Report 0 demo_failed; EvaluateUnsafe demo_chain None; Report 0 demo_ready;
   Evaluate (BySingleCollection 0); Report 0 demo_failed].

Lemma demo_well_formed : well_formed demo_world.
Proof.
  split.
  - intros s sub Hs. vm_compute in Hs. destruct s; discriminate Hs.
  - intros i fs Hfs. left. destruct i as [|i]; vm_compute in Hfs.
    + by injection Hfs as <-.
    + destruct i; discriminate Hfs.
Defined.

Lemma demo_others_spare_1 : spares 1 demo_others.
Proof.
  intros Hin. unfold demo_others in Hin.
  repeat (apply elem_of_cons in Hin as [Hin|Hin]; [discriminate Hin|]).
  by apply elem_of_nil in Hin.
Defined.

Lemma demo_others_spare_2 : spares 2 demo_others.
Proof.
  intros Hin. unfold demo_others in Hin.
  repeat (apply elem_of_cons in Hin as [Hin|Hin]; [discriminate Hin|]).
  by apply elem_of_nil in Hin.
Defined.

Lemma subscriptions_and_finalizers_agree_witness :
  subscriptions (run demo_engine demo_history empty_world) !! 0
    = Some (mkSubscription 0 (mkCallback QueryBridge 0 0) false 1)
  ∧ sub_released (mkSubscription 0 (mkCallback QueryBridge 0 0) false 1) = 1.
Proof.
  assert (Hs : subscriptions (run demo_engine demo_history empty_world) !! 0
               = Some (mkSubscription 0 (mkCallback QueryBridge 0 0) false 1))
    by reflexivity.
  split; [exact Hs|].
  exact (proj1 (subscriptions_and_finalizers_agree demo_engine demo_history 0 _ Hs)).
Defined.

Lemma teardown_all_releases_everything_witness :
  mkSubscription 0 (mkCallback QueryBridge 0 0) false 1
    ∈ subscriptions (teardown_all (run demo_engine [Evaluate (ByQuery demo_chain None)]
                                     empty_world))
  ∧ sub_active (mkSubscription 0 (mkCallback QueryBridge 0 0) false 1) = false.
Proof.
  assert (Hin : mkSubscription 0 (mkCallback QueryBridge 0 0) false 1
                  ∈ subscriptions
                      (teardown_all (run demo_engine [Evaluate (ByQuery demo_chain None)]
                                       empty_world)))
    by (vm_compute; left).
  split; [exact Hin|].
  exact (proj1 (teardown_all_releases_everything demo_engine
                  [Evaluate (ByQuery demo_chain None)] _ Hin)).
Defined.

Lemma demo_live_well_formed : well_formed demo_live.
Proof.
  split.
  - intros s sub Hs. destruct s as [|s]; [|destruct s; discriminate Hs].
    vm_compute in Hs. injection Hs as <-.
    split; [by eexists|]. split; [by intros _|by intros Hoff].
  - intros i fs Hfs. destruct i as [|[|i]]; vm_compute in Hfs.
    + left. by injection Hfs as <-.
    + right. injection Hfs as <-. by eexists 0, _.
    + destruct i; discriminate Hfs.
Defined.

Lemma finalized_cell_is_frozen_witness :
  well_formed demo_live
  ∧ 1 < length (cells demo_live)
  ∧ visible 1 demo_live = Some (CellResult (Success (PArray ["Task 7"; "Task 8"])))
  ∧ subscriptions demo_live = [mkSubscription 0 (mkCallback ArrayBridge 0 1) true 0]
  ∧ visible 1 (run demo_engine demo_aftermath demo_live)
    = Some (CellResult (Failure (mkError "Collection failed to load")))
  ∧ visible 1 (run demo_engine demo_aftermath (teardown 1 demo_live)) = visible 1 demo_live.
Proof.
  assert (Hlt : 1 < length (cells demo_live)) by (vm_compute; lia).
  split; [exact demo_live_well_formed|]. split; [exact Hlt|].
  split; [reflexivity|]. split; [reflexivity|]. split; [reflexivity|].
  exact (finalized_cell_is_frozen demo_engine demo_live 1 demo_aftermath
           demo_live_well_formed Hlt).
Defined.

Lemma mounted_cell_follows_among_others_witness :
  well_formed demo_world
  ∧ handle_valid (ByCollection 0) demo_world
  ∧ spares (length (cells demo_world)) demo_others
  ∧ ∃ col v,
      collections (run demo_engine demo_others
                     (exec (mount (atom_of demo_engine (ByCollection 0))) demo_world)) !! 0
        = Some col
      ∧ visible 1 (run demo_engine demo_others
                     (exec (mount (atom_of demo_engine (ByCollection 0))) demo_world))
        = Some (CellResult v).
Proof.
  split; [exact demo_well_formed|]. split; [exact demo_handle_valid|].
  split; [exact demo_others_spare_1|].
  destruct (mounted_cell_follows_among_others demo_engine (ByCollection 0) demo_world
              demo_others demo_well_formed demo_handle_valid demo_others_spare_1)
    as (col & v & Hcol & Hvis & _).
  by exists col, v.
Defined.

Lemma foreign_report_leaves_cell_witness :
  well_formed demo_world
  ∧ handle_valid (ByCollection 0) demo_world
  ∧ spares (length (cells demo_world)) demo_others
  ∧ 1 ≠ backing (ByCollection 0) demo_world
  ∧ visible 1 (transition 1 demo_ready
                 (run demo_engine demo_others
                    (exec (mount (atom_of demo_engine (ByCollection 0))) demo_world)))
    = visible 1 (run demo_engine demo_others
                   (exec (mount (atom_of demo_engine (ByCollection 0))) demo_world)).
Proof.
  assert (Hne : 1 ≠ backing (ByCollection 0) demo_world) by (vm_compute; lia).
  split; [exact demo_well_formed|]. split; [exact demo_handle_valid|].
  split; [exact demo_others_spare_1|]. split; [exact Hne|].
  apply (foreign_report_leaves_cell demo_engine (ByCollection 0) demo_world demo_others
           1 demo_ready demo_well_formed demo_handle_valid demo_others_spare_1 Hne).
Defined.

Lemma single_and_array_agree_witness :
  well_formed demo_world
  ∧ is_Some (collections demo_world !! 0)
  ∧ spares (length (cells demo_world)) demo_others
  ∧ spares (S (length (cells demo_world))) demo_others
  ∧ ∃ whole,
      visible 1 (run demo_engine demo_others
                   (exec (mount (makeSingleCollectionAtom 0))
                      (exec (mount (makeCollectionAtom 0)) demo_world)))
        = Some (CellResult whole)
      ∧ visible 2 (run demo_engine demo_others
                     (exec (mount (makeSingleCollectionAtom 0))
                        (exec (mount (makeCollectionAtom 0)) demo_world)))
        = Some (CellResult (head_of whole)).
Proof.
  split; [exact demo_well_formed|]. split; [exact demo_handle_valid|].
  split; [exact demo_others_spare_1|]. split; [exact demo_others_spare_2|].
  apply (single_and_array_agree demo_engine 0 demo_world demo_others demo_well_formed
           demo_handle_valid demo_others_spare_1 demo_others_spare_2).
Defined.

Lemma evaluation_only_adds_witness :
  is_evaluation (EvaluateUnsafe (K:=nat) (T:=string) demo_chain None) = true
  ∧ ∃ more, cells (perform demo_engine demo_world (EvaluateUnsafe demo_chain None))
            = cells demo_world ++ more.
Proof.
  split; [reflexivity|].
  apply (evaluation_only_adds demo_engine (EvaluateUnsafe demo_chain None) demo_world
           eq_refl).
Defined.
